(** * Session store and route guard of the hosting dashboard

    A shallow embedding of the zustand store [useUserStore]
    (authentication actions and role predicates), of the axios instance
    it talks through, and of the two [ProtectedRoute] components,
    followed by the properties of the session core. *)

From stdpp Require Import base option strings gmap list.

Open Scope string_scope.
Open Scope list_scope.

(** ** JavaScript values used by the store *)

Module Js.

(** Truthiness of a string: only the empty string is falsy. *)
Definition truthy (s : string) : bool := negb (String.eqb s "").

(** [!!x] for [x : string | null]. *)
Definition to_bool (x : option string) : bool :=
  match x with
  | Some s => truthy s
  | None => false
  end.

(** [x || null] for [x : string | null]. *)
Definition or_null (x : option string) : option string :=
  match x with
  | Some s => if truthy s then Some s else None
  | None => None
  end.

(** [b] for an optional boolean prop ([undefined] is falsy). *)
Definition flag (b : option bool) : bool :=
  match b with
  | Some v => v
  | None => false
  end.

End Js.

(** ** Interfaces *)

(** Modelled from the spec: [UserRole] and [AccountStatus] are declared in
    [../types], which is not among the sources.  The spec enumerates the
    roles [user], [admin] and [super_admin]; the store and the guard only
    compare [role] with string literals, so both types are strings here. *)
Definition UserRole := string.
Definition AccountStatus := string.

Record User := mkUser {
  id : string;
  email : string;
  full_name : string;
  role : UserRole;
  account_status : AccountStatus;
  phone : option string;
  company_name : option string;
  address : option string;
  city : option string;
  country : option string;
  referral_code : option string;
  referred_by : option string;
  subscription_status : option string;
  created_at : option string;
  updated_at : option string
}.

Record UserStats := mkUserStats {
  total_users : Z;
  active_users : Z;
  suspended_users : Z;
  new_users_today : Z;
  new_users_this_week : Z;
  new_users_this_month : Z
}.

Record LoginCredentials := mkLoginCredentials {
  cred_email : string;
  cred_password : string
}.

Record AuthResponse := mkAuthResponse {
  access_token : string;
  token_type : string;
  auth_user : User
}.

(** What a rejected request throws; the store reads [err.message]. *)
Record ApiError := mkApiError { message : string }.

(** The state part of [UserStore]. *)
Record UserStore := mkUserStore {
  users : list User;
  user : option User;
  stats : option UserStats;
  loading : bool;
  error : option string;
  token : option string;
  isAuthenticated : bool
}.

(** ** Partial states

    zustand's [set(partial)] merges an object literal into the state; a
    literal is a list of field assignments. *)

Inductive Assign :=
| f_users (v : list User)
| f_user (v : option User)
| f_stats (v : option UserStats)
| f_loading (v : bool)
| f_error (v : option string)
| f_token (v : option string)
| f_isAuthenticated (v : bool).

Definition assign (s : UserStore) (a : Assign) : UserStore :=
  match a with
  | f_users v => mkUserStore v (user s) (stats s) (loading s) (error s) (token s) (isAuthenticated s)
  | f_user v => mkUserStore (users s) v (stats s) (loading s) (error s) (token s) (isAuthenticated s)
  | f_stats v => mkUserStore (users s) (user s) v (loading s) (error s) (token s) (isAuthenticated s)
  | f_loading v => mkUserStore (users s) (user s) (stats s) v (error s) (token s) (isAuthenticated s)
  | f_error v => mkUserStore (users s) (user s) (stats s) (loading s) v (token s) (isAuthenticated s)
  | f_token v => mkUserStore (users s) (user s) (stats s) (loading s) (error s) v (isAuthenticated s)
  | f_isAuthenticated v => mkUserStore (users s) (user s) (stats s) (loading s) (error s) (token s) v
  end.

Definition merge (s : UserStore) (partial : list Assign) : UserStore :=
  fold_left assign partial s.

(** ** The world around the store *)

Inductive Method := GET | POST.

Inductive Payload :=
| LoginPayload (credentials : LoginCredentials)
| RegisterPayload (email password full_name : string) (referral_code : option string).

Record Request := mkRequest {
  method : Method;
  url : string;
  data : option Payload;
  headers : gmap string string
}.

(** What can be observed from outside, in the order it happens: every
    [set] notifies the subscribers with the new state, every request goes
    to the network, and [console.error] writes to the console. *)
Inductive Event :=
| Notified (s : UserStore)
| Sent (r : Request)
| ConsoleError (msg : string) (err : ApiError).

Record World := mkWorld {
  store : UserStore;
  localStorage : gmap string string;
  (** [api.defaults.headers.common] *)
  defaults : gmap string string;
  trace : list Event
}.

(** The remote API, typed as the store types its calls:
    [api.post<AuthResponse>] and [api.get<User>]. *)
Record Server := mkServer {
  post_auth : Request → ApiError + AuthResponse;
  get_user : Request → ApiError + User
}.

(** ** Actions: state passing with exceptions *)

Inductive Result (A : Type) :=
| Returned (a : A)
| Threw (err : ApiError).
Arguments Returned {A} a.
Arguments Threw {A} err.

Definition M (A : Type) : Type := World → Result A * World.

Definition ret {A} (a : A) : M A := λ w, (Returned a, w).

Definition bind {A B} (m : M A) (k : A → M B) : M B :=
  λ w, match m w with
       | (Returned a, w') => k a w'
       | (Threw err, w') => (Threw err, w')
       end.

Definition throw {A} (err : ApiError) : M A := λ w, (Threw err, w).

Definition try_catch {A} (body : M A) (handler : ApiError → M A) : M A :=
  λ w, match body w with
       | (Returned a, w') => (Returned a, w')
       | (Threw err, w') => handler err w'
       end.

Notation "'let*' x ':=' m 'in' k" := (bind m (λ x, k))
  (at level 10, x name, m at level 100, k at level 200).
Notation "m ';;;' k" := (bind m (λ _, k))
  (at level 100, k at level 200, right associativity).

Definition emit (e : Event) (w : World) : World :=
  mkWorld (store w) (localStorage w) (defaults w) (trace w ++ [e]).

(** [set(partial)] *)
Definition set (partial : list Assign) : M unit :=
  λ w, let s := merge (store w) partial in
       (Returned (), emit (Notified s) (mkWorld s (localStorage w) (defaults w) (trace w))).

(** [get()] *)
Definition get : M UserStore := λ w, (Returned (store w), w).

Definition localStorage_getItem (key : string) : M (option string) :=
  λ w, (Returned (localStorage w !! key), w).

Definition localStorage_setItem (key value : string) : M unit :=
  λ w, (Returned (), mkWorld (store w) (<[key := value]> (localStorage w)) (defaults w) (trace w)).

Definition localStorage_removeItem (key : string) : M unit :=
  λ w, (Returned (), mkWorld (store w) (delete key (localStorage w)) (defaults w) (trace w)).

(** [api.defaults.headers.common[name] = value] *)
Definition defaults_set (name value : string) : M unit :=
  λ w, (Returned (), mkWorld (store w) (localStorage w) (<[name := value]> (defaults w)) (trace w)).

(** [delete api.defaults.headers.common[name]] *)
Definition defaults_delete (name : string) : M unit :=
  λ w, (Returned (), mkWorld (store w) (localStorage w) (delete name (defaults w)) (trace w)).

Definition console_error (msg : string) (err : ApiError) : M unit :=
  λ w, (Returned (), emit (ConsoleError msg err) w).

Definition Bearer (t : string) : string := "Bearer " +:+ t.

(** ** api/axiosInstance.ts *)

(** The request interceptor: the persisted token, when truthy, becomes
    the [Authorization] header of the outgoing request. *)
Definition interceptor (ls : gmap string string) (hs : gmap string string)
  : gmap string string :=
  match ls !! "authToken" with
  | Some t => if Js.truthy t then <["Authorization" := Bearer t]> hs else hs
  | None => hs
  end.

(** The request that leaves the instance: the call's own headers over
    the defaults, then the interceptor. *)
Definition request_of (m : Method) (u : string) (d : option Payload)
    (config : gmap string string) (w : World) : Request :=
  mkRequest m u d (interceptor (localStorage w) (config ∪ defaults w)).

Definition send {A} (endpoint : Request → ApiError + A) (m : Method) (u : string)
    (d : option Payload) (config : gmap string string) : M A :=
  λ w, let r := request_of m u d config w in
       match endpoint r with
       | inl err => (Threw err, emit (Sent r) w)
       | inr a => (Returned a, emit (Sent r) w)
       end.

Definition api_post (srv : Server) (u : string) (d : Payload) : M AuthResponse :=
  send (post_auth srv) POST u (Some d) ∅.

Definition api_get (srv : Server) (u : string) (config : gmap string string) : M User :=
  send (get_user srv) GET u None config.

(** ** The store (authentication actions) *)

(** The state the store is created with, hydrated from [localStorage]. *)
Definition initial_state (ls : gmap string string) : UserStore :=
  {| users := [];
     user := None;
     stats := None;
     loading := false;
     error := None;
     token := Js.or_null (ls !! "authToken");
     isAuthenticated := Js.to_bool (ls !! "authToken") |}.

Definition initial_world (ls : gmap string string) : World :=
  mkWorld (initial_state ls) ls ∅ [].

Definition login (srv : Server) (credentials : LoginCredentials) : M unit :=
  set [f_loading true; f_error None] ;;;
  try_catch
    (let* res := api_post srv "/auth/login" (LoginPayload credentials) in
     localStorage_setItem "authToken" (access_token res) ;;;
     set [f_user (Some (auth_user res)); f_token (Some (access_token res));
          f_isAuthenticated true; f_loading false] ;;;
     defaults_set "Authorization" (Bearer (access_token res)))
    (λ err,
     set [f_error (Some (message err)); f_loading false] ;;;
     throw err).

Definition signUp (srv : Server) (email password fullName : string)
    (referralCode : option string) : M unit :=
  set [f_loading true; f_error None] ;;;
  try_catch
    (let* res := api_post srv "/auth/register"
                   (RegisterPayload email password fullName referralCode) in
     localStorage_setItem "authToken" (access_token res) ;;;
     set [f_user (Some (auth_user res)); f_token (Some (access_token res));
          f_isAuthenticated true; f_loading false] ;;;
     defaults_set "Authorization" (Bearer (access_token res)))
    (λ err,
     set [f_error (Some (message err)); f_loading false] ;;;
     throw err).

Definition logout : M unit :=
  localStorage_removeItem "authToken" ;;;
  set [f_user None; f_token None; f_isAuthenticated false; f_users []; f_stats None] ;;;
  defaults_delete "Authorization".

Definition checkAuth (srv : Server) : M unit :=
  let* token := localStorage_getItem "authToken" in
  match Js.or_null token with
  | Some t =>
      set [f_loading true] ;;;
      try_catch
        (let* res := api_get srv "/auth/me" {["Authorization" := Bearer t]} in
         set [f_user (Some res); f_token (Some t); f_isAuthenticated true;
              f_loading false] ;;;
         defaults_set "Authorization" (Bearer t))
        (λ err,
         console_error "Auth check failed:" err ;;;
         localStorage_removeItem "authToken" ;;;
         set [f_user None; f_token None; f_isAuthenticated false; f_loading false] ;;;
         defaults_delete "Authorization")
  | None =>
      set [f_isAuthenticated false; f_loading false]
  end.

(** [user?.role === r] *)
Definition role_is (u : option User) (r : string) : bool :=
  match u with
  | Some v => String.eqb (role v) r
  | None => false
  end.

(** [get().user?.role === 'admin' || get().user?.role === 'super_admin']:
    the second [get()] is only evaluated when the first comparison is
    false. *)
Definition getIsAdmin : M bool :=
  let* s := get in
  if role_is (user s) "admin" then ret true
  else let* s' := get in ret (role_is (user s') "super_admin").

Definition getIsSuperAdmin : M bool :=
  let* s := get in ret (role_is (user s) "super_admin").

(** ** components/ProtectedRoute.tsx *)

Section Guard.

(** The type of React nodes is left abstract.  A component is rendered
    from its props against the current state of the store. *)
Context {Node : Type}.

Record ProtectedRouteProps := mkProps {
  children : Node;
  requireAdmin : option bool;
  requireSuperAdmin : option bool
}.

(** What a component returns: the spinner, a redirect, or a fragment
    around its children. *)
Inductive Element :=
| Spinner
| Navigate (to : string) (replace : bool)
| Fragment (c : Node).

Definition ProtectedRoute (props : ProtectedRouteProps) (s : UserStore) : Element :=
  if loading s then Spinner
  else if negb (isAuthenticated s) then Navigate "/login" true
  else
    let isAdmin := role_is (user s) "admin" || role_is (user s) "super_admin" in
    let isSuperAdmin := role_is (user s) "super_admin" in
    if Js.flag (requireAdmin props) && negb isAdmin then Navigate "/dashboard" true
    else if Js.flag (requireSuperAdmin props) && negb isSuperAdmin
         then Navigate "/dashboard" true
         else Fragment (children props).

End Guard.

Arguments ProtectedRouteProps Node : clear implicits.
Arguments Element Node : clear implicits.

(** ** store/authStore.ts, last component *)

Module authStore.

(** Its props are the children alone.  Like every component it is
    rendered against the current store, which it never reads. *)
Definition ProtectedRoute {Node : Type} (children : Node) (s : UserStore)
  : Element Node :=
  Fragment children.

End authStore.

(** ** Reachable worlds

    The store is created once from the persisted storage and afterwards
    changed by completed authentication actions, each against whatever
    the server answers at that moment. *)

Inductive Action :=
| DoLogin (credentials : LoginCredentials)
| DoSignUp (email password fullName : string) (referralCode : option string)
| DoLogout
| DoCheckAuth.

Definition run (srv : Server) (a : Action) : M unit :=
  match a with
  | DoLogin c => login srv c
  | DoSignUp e p n r => signUp srv e p n r
  | DoLogout => logout
  | DoCheckAuth => checkAuth srv
  end.

Inductive reachable : World → Prop :=
| reachable_initial ls :
    reachable (initial_world ls)
| reachable_step w srv a :
    reachable w → reachable (run srv a w).2.

(** The session fields as the spec names them. *)
Definition token_present (s : UserStore) : Prop := token s ≠ None.
Definition user_present (s : UserStore) : Prop := user s ≠ None.

(** The equivalence of the spec's invariant. *)
Definition consistent (s : UserStore) : Prop :=
  isAuthenticated s = true ↔ token_present s ∧ user_present s.

(** The requests the three asynchronous actions send from world [w]. *)
Definition login_request (credentials : LoginCredentials) (w : World) : Request :=
  request_of POST "/auth/login" (Some (LoginPayload credentials)) ∅ w.

Definition signUp_request (email password fullName : string)
    (referralCode : option string) (w : World) : Request :=
  request_of POST "/auth/register"
    (Some (RegisterPayload email password fullName referralCode)) ∅ w.

Definition me_request (t : string) (w : World) : Request :=
  request_of GET "/auth/me" None {["Authorization" := Bearer t]} w.

(** The first thing action [m] does from world [w] is to show its
    subscribers a state without error. *)
Definition clears_error_first (m : M unit) (w : World) : Prop :=
  ∃ s rest, trace (m w).2 = trace w ++ Notified s :: rest ∧ error s = None.

(** What every reachable world satisfies: the flag and the user both
    need the token, and a session without persisted token is empty. *)
Record coherent (w : World) : Prop := {
  flag_needs_token : isAuthenticated (store w) = true → token_present (store w);
  user_needs_token : user_present (store w) → token_present (store w);
  nothing_remembered :
    localStorage w !! "authToken" = None →
    token (store w) = None ∧ user (store w) = None
}.

(** The requests an action sent: the [Sent] events of a trace. *)
Fixpoint requests (t : list Event) : list Request :=
  match t with
  | [] => []
  | Sent r :: t' => r :: requests t'
  | _ :: t' => requests t'
  end.

(** The states the subscribers saw: the [Notified] events of a trace. *)
Fixpoint notifications (t : list Event) : list UserStore :=
  match t with
  | [] => []
  | Notified s :: t' => s :: notifications t'
  | _ :: t' => notifications t'
  end.

(** ** The roles of the spec *)

(** Modelled from the spec: the enumeration [Role] with its privilege
    order (section 3), which the sources only have as string literals. *)
Inductive Role := RoleUser | RoleAdmin | RoleSuperAdmin.

Definition role_name (r : Role) : UserRole :=
  match r with
  | RoleUser => "user"
  | RoleAdmin => "admin"
  | RoleSuperAdmin => "super_admin"
  end.

Definition privilege (r : Role) : nat :=
  match r with
  | RoleUser => 0
  | RoleAdmin => 1
  | RoleSuperAdmin => 2
  end.

(** A capability check passes for the roles at or above the required
    one. *)
Definition passes (required : Role) (r : Role) : bool :=
  (privilege required <=? privilege r)%nat.

(** ** Fixtures *)

Definition user_with_role (r : UserRole) : User :=
  {| id := "u-1"; email := "someone@example.com"; full_name := "Some One";
     role := r; account_status := "active"; phone := None;
     company_name := None; address := None; city := None; country := None;
     referral_code := None; referred_by := None; subscription_status := None;
     created_at := None; updated_at := None |}.

Definition session (u : option User) (t : option string) (auth busy : bool)
  : UserStore :=
  {| users := []; user := u; stats := None; loading := busy; error := None;
     token := t; isAuthenticated := auth |}.

Definition world_of (s : UserStore) : World := mkWorld s ∅ ∅ [].

(** A server that rejects everything, and one that accepts everything
    and answers with token [t] and user [u]. *)
Definition rejecting (msg : string) : Server :=
  {| post_auth := λ _, inl (mkApiError msg);
     get_user := λ _, inl (mkApiError msg) |}.

Definition accepting (t : string) (u : User) : Server :=
  {| post_auth := λ _, inr (mkAuthResponse t "bearer" u);
     get_user := λ _, inr u |}.

Definition remembered : gmap string string := {["authToken" := "t0"]}.

Definition admin_session : World :=
  world_of (session (Some (user_with_role "admin")) (Some "t0") true false).

Definition member_session : World :=
  world_of (session (Some (user_with_role "user")) (Some "t0") true false).

Definition admin_page : ProtectedRouteProps string :=
  mkProps "admin page" (Some true) None.

Definition wrong_password : LoginCredentials :=
  mkLoginCredentials "someone@example.com" "wrong".

Definition right_password : LoginCredentials :=
  mkLoginCredentials "someone@example.com" "secret".

(** The world after a first, successful login. *)
Definition logged_in : World :=
  (login (accepting "t1" (user_with_role "user")) right_password (initial_world ∅)).2.

(** The world after a login that failed: the session still shows the
    error. *)
Definition failed_before : World :=
  (login (rejecting "Invalid credentials") wrong_password (initial_world remembered)).2.

(** A session of an administrator with a list of users and stats, as
    [fetchUsers] and [fetchUserStats] leave them in the store. *)
Definition cached : World :=
  mkWorld {| users := [user_with_role "user"]; user := Some (user_with_role "admin");
             stats := Some (mkUserStats 1 1 0 0 0 1); loading := false;
             error := None; token := Some "t0"; isAuthenticated := true |}
          remembered {["Authorization" := Bearer "t0"]} [].

(** ** The store (user management actions) *)

Record UserCreate := mkUserCreate {
  create_email : string;
  create_full_name : string;
  create_password : string;
  create_role : option string;
  create_account_status : option string;
  create_phone : option string;
  create_company : option string;
  create_referral_code : option string
}.

Record UserUpdate := mkUserUpdate {
  update_full_name : option string;
  update_email : option string;
  update_role : option string;
  update_account_status : option string;
  update_phone : option string;
  update_company : option string
}.

(** The optional argument of [fetchUsers]; [{}] has the three fields
    absent. *)
Record Filters := mkFilters {
  filter_search : option string;
  filter_role : option string;
  filter_status : option string
}.

(** The calls of the user management endpoints.  They go through the
    same axios instance, hence through the same interceptor, as the
    authentication requests. *)
Module Rest.

Inductive Method := GET | POST | PUT | DELETE.

(** A URL is a literal path, or a path followed by [?] and the
    serialisation of a [URLSearchParams], kept here as the list of
    pairs that were appended to it. *)
Inductive Url :=
| Path (p : string)
| Query (p : string) (params : list (string * string)).

Inductive Body :=
| CreateBody (d : UserCreate)
| UpdateBody (d : UserUpdate).

Record Call := mkCall {
  method : Method;
  url : Url;
  body : option Body;
  headers : gmap string string
}.

(** The endpoints, typed as the store types its calls: [api.get<User[]>],
    [api.get<User>], [api.post<User>], [api.put<User>],
    [api.get<UserStats>]; the answers of [api.delete] and of the two
    untyped [api.post] are not looked at. *)
Record Server := mkServer {
  users_endpoint : Call → ApiError + list User;
  user_endpoint : Call → ApiError + User;
  plain_endpoint : Call → ApiError + unit;
  stats_endpoint : Call → ApiError + UserStats
}.

(** The call that leaves the instance from world [w]. *)
Definition call_of (m : Method) (u : Url) (b : option Body) (w : World) : Call :=
  mkCall m u b (interceptor (localStorage w) (∅ ∪ defaults w)).

(** Hands the call to the server; the world itself is not changed. *)
Definition call {A} (endpoint : Call → ApiError + A) (m : Method) (u : Url)
    (b : option Body) : M A :=
  λ w, match endpoint (call_of m u b w) with
       | inl err => (Threw err, w)
       | inr a => (Returned a, w)
       end.

End Rest.

(** [if (v) params.append(k, v)] *)
Definition append_if (k : string) (v : option string)
    (params : list (string * string)) : list (string * string) :=
  match Js.or_null v with
  | Some x => params ++ [(k, x)]
  | None => params
  end.

(** [{ ...u, account_status: status }] *)
Definition with_account_status (status : AccountStatus) (u : User) : User :=
  mkUser (id u) (email u) (full_name u) (role u) status (phone u)
    (company_name u) (address u) (city u) (country u) (referral_code u)
    (referred_by u) (subscription_status u) (created_at u) (updated_at u).

(** The [URLSearchParams] that [fetchUsers] builds from its filters. *)
Definition params_of (filters : Filters) : list (string * string) :=
  let params := [] in
  let params := append_if "search" (filter_search filters) params in
  let params := append_if "role" (filter_role filters) params in
  let params := append_if "status" (filter_status filters) params in
  params.

Definition fetchUsers (srv : Rest.Server) (filters : Filters) : M unit :=
  set [f_loading true; f_error None] ;;;
  try_catch
    (let params := params_of filters in
     let* res := Rest.call (Rest.users_endpoint srv) Rest.GET
                   (Rest.Query "/users" params) None in
     set [f_users res; f_loading false])
    (λ err, set [f_error (Some (message err)); f_loading false]).

Definition getUserById (srv : Rest.Server) (id : string) : M unit :=
  set [f_loading true; f_error None] ;;;
  try_catch
    (let* res := Rest.call (Rest.user_endpoint srv) Rest.GET
                   (Rest.Path ("/users/" +:+ id)) None in
     set [f_user (Some res); f_loading false])
    (λ err, set [f_error (Some (message err)); f_loading false]).

Definition createUser (srv : Rest.Server) (d : UserCreate) : M unit :=
  set [f_loading true; f_error None] ;;;
  try_catch
    (let* res := Rest.call (Rest.user_endpoint srv) Rest.POST
                   (Rest.Path "/users") (Some (Rest.CreateBody d)) in
     let* s := get in
     set [f_users (users s ++ [res]); f_loading false])
    (λ err, set [f_error (Some (message err)); f_loading false]).

Definition updateUser (srv : Rest.Server) (id' : string) (d : UserUpdate) : M unit :=
  set [f_loading true; f_error None] ;;;
  try_catch
    (let* res := Rest.call (Rest.user_endpoint srv) Rest.PUT
                   (Rest.Path ("/users/" +:+ id')) (Some (Rest.UpdateBody d)) in
     let* s := get in
     set [f_users ((λ u, if decide (id u = id') then res else u) <$> users s);
          f_user (Some res); f_loading false])
    (λ err, set [f_error (Some (message err)); f_loading false]).

Definition deleteUser (srv : Rest.Server) (id' : string) : M unit :=
  set [f_loading true; f_error None] ;;;
  try_catch
    (Rest.call (Rest.plain_endpoint srv) Rest.DELETE
       (Rest.Path ("/users/" +:+ id')) None ;;;
     let* s := get in
     set [f_users (filter (λ u, id u ≠ id') (users s)); f_loading false])
    (λ err, set [f_error (Some (message err)); f_loading false]).

Definition suspendUser (srv : Rest.Server) (id' : string) : M unit :=
  set [f_loading true; f_error None] ;;;
  try_catch
    (Rest.call (Rest.plain_endpoint srv) Rest.POST
       (Rest.Path ("/users/" +:+ id' +:+ "/suspend")) None ;;;
     let* s := get in
     set [f_users ((λ u, if decide (id u = id')
                             then with_account_status "suspended" u else u)
                     <$> users s);
          f_loading false])
    (λ err, set [f_error (Some (message err)); f_loading false]).

Definition activateUser (srv : Rest.Server) (id' : string) : M unit :=
  set [f_loading true; f_error None] ;;;
  try_catch
    (Rest.call (Rest.plain_endpoint srv) Rest.POST
       (Rest.Path ("/users/" +:+ id' +:+ "/activate")) None ;;;
     let* s := get in
     set [f_users ((λ u, if decide (id u = id')
                             then with_account_status "active" u else u)
                     <$> users s);
          f_loading false])
    (λ err, set [f_error (Some (message err)); f_loading false]).

Definition fetchUserStats (srv : Rest.Server) : M unit :=
  set [f_loading true; f_error None] ;;;
  try_catch
    (let* res := Rest.call (Rest.stats_endpoint srv) Rest.GET
                   (Rest.Path "/users/stats") None in
     set [f_stats (Some res); f_loading false])
    (λ err, set [f_error (Some (message err)); f_loading false]).

(** *** Worlds reachable with all the actions of the store

    The actions are taken one at a time: each one runs to its end, the
    answer of the server included, before the next one starts.  What
    happens when an action starts while another one awaits its answer
    is looked at separately, with [checkAuth] cut at its [await]. *)

Inductive Management :=
| DoFetchUsers (filters : Filters)
| DoGetUserById (id : string)
| DoCreateUser (d : UserCreate)
| DoUpdateUser (id : string) (d : UserUpdate)
| DoDeleteUser (id : string)
| DoSuspendUser (id : string)
| DoActivateUser (id : string)
| DoFetchUserStats.

Definition manage (srv : Rest.Server) (a : Management) : M unit :=
  match a with
  | DoFetchUsers filters => fetchUsers srv filters
  | DoGetUserById i => getUserById srv i
  | DoCreateUser d => createUser srv d
  | DoUpdateUser i d => updateUser srv i d
  | DoDeleteUser i => deleteUser srv i
  | DoSuspendUser i => suspendUser srv i
  | DoActivateUser i => activateUser srv i
  | DoFetchUserStats => fetchUserStats srv
  end.




Inductive reachable_all : World → Prop :=
| all_initial ls :
    reachable_all (initial_world ls)
| all_session w srv a :
    reachable_all w → reachable_all (run srv a w).2
| all_management w srv a :
    reachable_all w → reachable_all (manage srv a w).2.

(** *** main.tsx: the startup check

    [Main] creates the store over the persisted storage and calls
    [checkAuth] once. *)
Definition startup (srv : Server) (ls : gmap string string) : World :=
  (checkAuth srv (initial_world ls)).2.

(** *** checkAuth around its await

    [checkAuth] up to the point where it awaits the answer of
    [/auth/me], and from the arrival of the answer on.  The first part
    returns the token it read and the request it sent, if it sent
    one. *)
Definition dispatch (m : Method) (u : string) (d : option Payload)
    (config : gmap string string) : M Request :=
  λ w, let r := request_of m u d config w in (Returned r, emit (Sent r) w).

Definition arrive {A} (answer : ApiError + A) : M A :=
  λ w, match answer with
       | inl err => (Threw err, w)
       | inr a => (Returned a, w)
       end.

Definition checkAuth_until_await : M (option (string * Request)) :=
  let* token := localStorage_getItem "authToken" in
  match Js.or_null token with
  | Some t =>
      set [f_loading true] ;;;
      let* r := dispatch GET "/auth/me" None {["Authorization" := Bearer t]} in
      ret (Some (t, r))
  | None =>
      set [f_isAuthenticated false; f_loading false] ;;;
      ret None
  end.

Definition checkAuth_after_await (t : string) (answer : ApiError + User) : M unit :=
  try_catch
    (let* res := arrive answer in
     set [f_user (Some res); f_token (Some t); f_isAuthenticated true;
          f_loading false] ;;;
     defaults_set "Authorization" (Bearer t))
    (λ err,
     console_error "Auth check failed:" err ;;;
     localStorage_removeItem "authToken" ;;;
     set [f_user None; f_token None; f_isAuthenticated false; f_loading false] ;;;
     defaults_delete "Authorization").

(** ** pages/Login.tsx *)

(** [err.response?.data?.detail] of the caught error, which is of type
    [any]: nothing, a string, or some other value of the answer's body
    (a number, a boolean, an array, an object), of which the page only
    tests whether it is truthy. *)
Inductive Detail :=
| NoDetail
| DetailText (s : string)
| DetailOther (truthy : bool).

(** What the error state of the page holds: a text, or the detail of
    the error as it came when that is not a string. *)
Inductive Shown :=
| Text (s : string)
| RawDetail.

Coercion Text : string >-> Shown.

(** What the login page shows after a submission: its own error and
    loading state, and where it navigated, if it did. *)
Record LoginView := mkLoginView {
  view_error : Shown;
  view_loading : bool;
  navigated : option string
}.

Definition detail_truthy (d : Detail) : bool :=
  match d with
  | NoDetail => false
  | DetailText s => Js.truthy s
  | DetailOther truthy => truthy
  end.

(** [d || b] for the detail [d] of an error and a string [b]. *)
Definition detail_or (d : Detail) (b : string) : Shown :=
  if detail_truthy d then
    match d with
    | DetailText s => Text s
    | _ => RawDetail
    end
  else Text b.

(** [a || b] for [a : string | undefined] and a string [b]. *)
Definition or_else (a : option string) (b : string) : string :=
  match Js.or_null a with
  | Some s => s
  | None => b
  end.

Section LoginPage.

(** [err.response?.data?.detail], which the error record of the store
    does not carry. *)
Variable detail : ApiError → Detail.

(** [handleSubmit], from the submission to the end of its [finally]. *)
Definition handleSubmit (srv : Server) (email password : string) (w : World)
  : LoginView * World :=
  match login srv (mkLoginCredentials email password) w with
  | (Returned _, w') =>
      let loggedInUser := user (store w') in
      (mkLoginView (Text "") false
         (Some (if role_is loggedInUser "admin" || role_is loggedInUser "super_admin"
                then "/admin" else "/dashboard")),
       w')
  | (Threw err, w') =>
      (mkLoginView
         (detail_or (detail err) (or_else (Some (message err)) "Failed to sign in"))
         false None,
       w')
  end.

End LoginPage.

(** ** components/TawkToWidget.tsx *)

(** [hideOnRoutes.some(route => location.pathname.startsWith(route))] *)
Definition shouldHide (hideOnRoutes : list string) (pathname : string) : bool :=
  existsb (λ route, String.prefix route pathname) hideOnRoutes.

(** The attributes handed to the widget for the current user, if there
    is one. *)
Definition attributes_of (u : User) : gmap string string :=
  let attributes : gmap string string :=
    <["userId" := id u]>
      (<["email" := or_else (Some (email u)) ""]>
         {["name" := or_else (Some (full_name u)) "Unknown User"]}) in
  let attributes :=
    if Js.truthy (role u) then <["role" := role u]> attributes else attributes in
  match Js.or_null (company_name u) with
  | Some c => <["company" := c]> attributes
  | None => attributes
  end.

Definition widget_attributes (u : option User) : option (gmap string string) :=
  attributes_of <$> u.


Definition serving (l : list User) (u : User) (st : UserStats) : Rest.Server :=
  {| Rest.users_endpoint := λ _, inr l;
     Rest.user_endpoint := λ _, inr u;
     Rest.plain_endpoint := λ _, inr ();
     Rest.stats_endpoint := λ _, inr st |}.

Definition customer (i : string) : User :=
  {| id := i; email := "customer@example.com"; full_name := "A Customer";
     role := "user"; account_status := "active"; phone := None;
     company_name := Some "Acme"; address := None; city := None; country := None;
     referral_code := None; referred_by := None; subscription_status := None;
     created_at := None; updated_at := None |}.

Definition no_stats : UserStats := mkUserStats 0 0 0 0 0 0.

(** What holds of every world between two actions: the store is idle,
    its token is the persisted one, and so is the token of the default
    [Authorization] header. *)
Record settled (w : World) : Prop := {
  settled_idle : loading (store w) = false;
  settled_token :
    ∀ t, token (store w) = Some t → localStorage w !! "authToken" = Some t;
  settled_storage :
    Js.or_null (localStorage w !! "authToken") = Js.or_null (token (store w));
  settled_flag : isAuthenticated (store w) = true → token (store w) ≠ None;
  settled_header :
    ∀ h, defaults w !! "Authorization" = Some h →
         ∃ t, localStorage w !! "authToken" = Some t ∧ h = Bearer t
}.

(** ** Role predicates *)

Lemma getIsAdmin_run w :
  getIsAdmin w =
  (Returned (role_is (user (store w)) "admin" || role_is (user (store w)) "super_admin"), w).
Proof.
  unfold getIsAdmin, bind, get, ret.
  destruct (role_is (user (store w)) "admin"); reflexivity.
Qed.

Lemma getIsSuperAdmin_run w :
  getIsSuperAdmin w = (Returned (role_is (user (store w)) "super_admin"), w).
Proof. reflexivity. Qed.

Lemma role_is_of_role u u' r :
  role <$> u = role <$> u' → role_is u r = role_is u' r.
Proof.
  destruct u, u'; simpl; intros H; try discriminate; [|reflexivity].
  injection H as ->. reflexivity.
Qed.

(** C10.  [getIsAdmin] and [getIsSuperAdmin] change nothing, depend on the
    world only through the role of the current user, are both false
    without a current user, and follow the order user < admin <
    super_admin: role [r] passes the admin check iff it is at least
    [admin] and the super-admin check iff it is [super_admin]. *)
Theorem role_predicates (w : World) :
  (getIsAdmin w).2 = w ∧ (getIsSuperAdmin w).2 = w
  ∧ (∀ w', role <$> user (store w) = role <$> user (store w') →
       (getIsAdmin w).1 = (getIsAdmin w').1
       ∧ (getIsSuperAdmin w).1 = (getIsSuperAdmin w').1)
  ∧ (user (store w) = None →
       (getIsAdmin w).1 = Returned false ∧ (getIsSuperAdmin w).1 = Returned false)
  ∧ (∀ u r, user (store w) = Some u → role u = role_name r →
       (getIsAdmin w).1 = Returned (passes RoleAdmin r)
       ∧ (getIsSuperAdmin w).1 = Returned (passes RoleSuperAdmin r))
  ∧ (∀ u, user (store w) = Some u →
       (role u = "admin" →
          (getIsAdmin w).1 = Returned true ∧ (getIsSuperAdmin w).1 = Returned false)
       ∧ (role u = "super_admin" →
          (getIsAdmin w).1 = Returned true ∧ (getIsSuperAdmin w).1 = Returned true)
       ∧ (role u = "user" →
          (getIsAdmin w).1 = Returned false ∧ (getIsSuperAdmin w).1 = Returned false)).
Proof.
  rewrite getIsAdmin_run, getIsSuperAdmin_run. simpl.
  split; [reflexivity|]. split; [reflexivity|]. split; [|split; [|split]].
  - intros w' Hrole. rewrite getIsAdmin_run. simpl.
    by rewrite !(role_is_of_role _ _ _ Hrole).
  - by intros ->.
  - intros u r -> Hr. simpl. rewrite Hr. by destruct r.
  - intros u ->. simpl. by split; [|split]; intros ->.
Qed.

Lemma role_predicates_witness :
  (getIsAdmin admin_session).1 = Returned true
  ∧ (getIsSuperAdmin admin_session).1 = Returned false.
Proof.
  destruct (role_predicates admin_session) as (_ & _ & _ & _ & _ & H).
  destruct (H (user_with_role "admin") eq_refl) as (Hadmin & _ & _).
  apply Hadmin. reflexivity.
Defined.

(** ** Route guards *)

Section GuardFacts.

Context {Node : Type}.
Implicit Types (props : ProtectedRouteProps Node) (c : Node).

(** C2.  The guard looks at [loading] first, at [isAuthenticated]
    second, at the admin requirement third and at the super-admin
    requirement fourth.  While loading it shows the spinner; otherwise
    an unauthenticated session is sent to [/login]; otherwise an unmet
    admin or super-admin requirement sends to [/dashboard]; otherwise
    the children are rendered as they are.  For an unauthenticated
    session neither the requirement nor the role matters. *)
Theorem guard_order props (w : World) :
  let s := store w in
  (loading s = true → ProtectedRoute props s = Spinner)
  ∧ (loading s = false → isAuthenticated s = false →
       ProtectedRoute props s = Navigate "/login" true)
  ∧ (loading s = false → isAuthenticated s = true →
       Js.flag (requireAdmin props) = true →
       (getIsAdmin w).1 = Returned false →
       ProtectedRoute props s = Navigate "/dashboard" true)
  ∧ (loading s = false → isAuthenticated s = true →
       Js.flag (requireSuperAdmin props) = true →
       (getIsSuperAdmin w).1 = Returned false →
       ProtectedRoute props s = Navigate "/dashboard" true)
  ∧ (loading s = false → isAuthenticated s = true →
       (Js.flag (requireAdmin props) = true → (getIsAdmin w).1 = Returned true) →
       (Js.flag (requireSuperAdmin props) = true →
          (getIsSuperAdmin w).1 = Returned true) →
       ProtectedRoute props s = Fragment (children props))
  ∧ (∀ props' s',
       loading s = false → isAuthenticated s = false →
       loading s' = false → isAuthenticated s' = false →
       ProtectedRoute props s = ProtectedRoute props' s').
Proof.
  intros s. unfold ProtectedRoute.
  rewrite getIsAdmin_run, getIsSuperAdmin_run. simpl. fold s.
  split; [by intros ->|]. split; [by intros -> ->|].
  split; [|split; [|split]].
  - intros -> -> -> [= ->]. done.
  - intros -> -> -> [= ->]. simpl.
    by destruct (Js.flag _ && _).
  - intros -> -> Ha Hs. simpl.
    destruct (Js.flag (requireAdmin props)).
    + specialize (Ha eq_refl) as [= ->]. simpl.
      destruct (Js.flag (requireSuperAdmin props)); [|done].
      by specialize (Hs eq_refl) as [= ->].
    + simpl. destruct (Js.flag (requireSuperAdmin props)); [|done].
      by specialize (Hs eq_refl) as [= ->].
  - by intros props' s' -> -> -> ->.
Qed.

(** C3.  The component at the end of [store/authStore.ts] returns its
    children whatever the session is: two sessions give the same
    output.  The guard of [components/ProtectedRoute.tsx] answers
    differently as soon as the session is loading or unauthenticated. *)
Theorem open_route_ignores_session c (s1 s2 : UserStore) :
  authStore.ProtectedRoute c s1 = authStore.ProtectedRoute c s2
  ∧ authStore.ProtectedRoute c s1 = Fragment c
  ∧ (∀ ra rsa, loading s1 = true ∨ isAuthenticated s1 = false →
       ProtectedRoute (mkProps c ra rsa) s1 ≠ authStore.ProtectedRoute c s1).
Proof.
  split; [done|]. split; [done|].
  intros ra rsa H. unfold ProtectedRoute, authStore.ProtectedRoute.
  destruct (loading s1); [done|].
  destruct H as [H|H]; [done|]. by rewrite H.
Qed.

End GuardFacts.

Lemma guard_order_witness :
  ProtectedRoute admin_page (session None None false true) = Spinner
  ∧ ProtectedRoute admin_page (session None None false false) = Navigate "/login" true
  ∧ ProtectedRoute admin_page (store member_session) = Navigate "/dashboard" true
  ∧ ProtectedRoute admin_page (store admin_session) = Fragment "admin page".
Proof.
  split; [|split; [|split]].
  - by apply (guard_order admin_page (world_of (session None None false true))).
  - by apply (guard_order admin_page (world_of (session None None false false))).
  - destruct (guard_order admin_page member_session) as (_ & _ & Hadmin & _).
    by apply Hadmin.
  - destruct (guard_order admin_page admin_session)
      as (_ & _ & _ & _ & Hallowed & _).
    by apply Hallowed.
Defined.

Lemma open_route_ignores_session_witness :
  ProtectedRoute (mkProps "admin page" (Some true) None)
    (session None None false false)
  ≠ authStore.ProtectedRoute "admin page" (session None None false false).
Proof.
  apply (open_route_ignores_session "admin page"
           (session None None false false) (session None None false false)).
  by right.
Defined.

(** ** Running the actions *)

Lemma requests_app t t' : requests (t ++ t') = requests t ++ requests t'.
Proof.
  induction t as [|[s|r|msg err] t IH]; simpl; [done|done| |done].
  by rewrite IH.
Qed.

Lemma notifications_app t t' :
  notifications (t ++ t') = notifications t ++ notifications t'.
Proof.
  induction t as [|[s|r|msg err] t IH]; simpl; [done| |done|done].
  by rewrite IH.
Qed.

(** Unfolds an action down to the primitive steps on the world. *)
Ltac exec :=
  unfold run, login, signUp, logout, checkAuth, login_request, signUp_request,
    me_request, request_of, bind, try_catch, throw, ret, set, get, api_post,
    api_get, send,
    console_error, localStorage_getItem, localStorage_setItem,
    localStorage_removeItem, defaults_set, defaults_delete, emit, merge in *;
  simpl in *; unfold request_of in *; simpl in *.

Ltac flatten_trace := rewrite <- ?app_assoc; simpl.

Ltac read_trace :=
  flatten_trace; rewrite ?requests_app, ?notifications_app; simpl;
  rewrite ?app_nil_r.

(** C4.  [logout] returns normally from every world, and afterwards the
    session is unauthenticated, token and current user are absent, and
    the persisted [authToken] is gone.  It sends no request: the only
    thing it adds to the trace is the notification of the new state. *)
Theorem logout_clears_session (w : World) :
  let w' := (logout w).2 in
  (logout w).1 = Returned ()
  ∧ isAuthenticated (store w') = false
  ∧ token (store w') = None
  ∧ user (store w') = None
  ∧ localStorage w' !! "authToken" = None
  ∧ trace w' = trace w ++ [Notified (store w')]
  ∧ requests (trace w') = requests (trace w).
Proof.
  exec. repeat split.
  - apply lookup_delete_eq.
  - by read_trace.
Qed.

(** C5, as the store has it.  When the server rejects the login request
    (or the request fails on the way), [login] writes [error] and
    [loading] only: current user, token and [isAuthenticated] keep the
    value they had, so that a session that was unauthenticated is left
    unauthenticated; nothing is persisted; [error] holds the message of
    the failure; the failure itself is thrown to the caller; and exactly
    one request was sent. *)
Theorem login_failure (srv : Server) (credentials : LoginCredentials) (w : World)
    (err : ApiError) :
  post_auth srv (login_request credentials w) = inl err →
  let w' := (login srv credentials w).2 in
  (login srv credentials w).1 = Threw err
  ∧ user (store w') = user (store w)
  ∧ token (store w') = token (store w)
  ∧ isAuthenticated (store w') = isAuthenticated (store w)
  ∧ (isAuthenticated (store w) = false → isAuthenticated (store w') = false)
  ∧ error (store w') = Some (message err)
  ∧ loading (store w') = false
  ∧ localStorage w' = localStorage w
  ∧ defaults w' = defaults w
  ∧ requests (trace w') = requests (trace w) ++ [login_request credentials w].
Proof.
  intros Hrejected. exec. rewrite Hrejected. simpl.
  repeat split; trivial.
  by read_trace.
Qed.

(** C6.  When [checkAuth] finds a persisted token and [/auth/me] rejects
    it, the persisted token is removed and the session ends
    unauthenticated, with no user, no token and [loading] false.
    [checkAuth] returns normally, and [error] is never written: it is the
    same before, after, and in every state shown in between. *)
Theorem checkAuth_rejected (srv : Server) (w : World) (t : string) (err : ApiError) :
  localStorage w !! "authToken" = Some t →
  Js.truthy t = true →
  get_user srv (me_request t w) = inl err →
  let w' := (checkAuth srv w).2 in
  (checkAuth srv w).1 = Returned ()
  ∧ localStorage w' !! "authToken" = None
  ∧ user (store w') = None
  ∧ token (store w') = None
  ∧ isAuthenticated (store w') = false
  ∧ loading (store w') = false
  ∧ error (store w') = error (store w)
  ∧ (∃ s, trace w' = trace w ++ [Notified s; Sent (me_request t w);
                                  ConsoleError "Auth check failed:" err;
                                  Notified (store w')]
          ∧ error s = error (store w)).
Proof.
  intros Hstored Htruthy Hrejected. exec.
  rewrite Hstored. simpl. rewrite Htruthy. simpl.
  rewrite Hrejected. simpl.
  split; [done|]. split; [apply lookup_delete_eq|].
  repeat (split; [done|]).
  eexists. flatten_trace. split; reflexivity.
Qed.

(** C7.  Without a persisted token [checkAuth] sends nothing: it only
    sets [isAuthenticated] and [loading] to false, and leaves current
    user, token and the persisted storage as they were. *)
Theorem checkAuth_no_token (srv : Server) (w : World) :
  localStorage w !! "authToken" = None →
  let w' := (checkAuth srv w).2 in
  (checkAuth srv w).1 = Returned ()
  ∧ isAuthenticated (store w') = false
  ∧ loading (store w') = false
  ∧ requests (trace w') = requests (trace w)
  ∧ trace w' = trace w ++ [Notified (store w')]
  ∧ user (store w') = user (store w)
  ∧ token (store w') = token (store w)
  ∧ localStorage w' = localStorage w.
Proof.
  intros Habsent. exec. rewrite Habsent. simpl.
  repeat split.
  by read_trace.
Qed.

(** A login that fails on a session that is already authenticated
    leaves it authenticated, with its user and its token. *)
Lemma failed_login_keeps_session :
  reachable logged_in
  ∧ (login (rejecting "Invalid credentials") wrong_password logged_in).1
    = Threw (mkApiError "Invalid credentials")
  ∧ isAuthenticated
      (store (login (rejecting "Invalid credentials") wrong_password logged_in).2)
    = true
  ∧ user (store (login (rejecting "Invalid credentials") wrong_password logged_in).2)
    = Some (user_with_role "user")
  ∧ token (store (login (rejecting "Invalid credentials") wrong_password logged_in).2)
    = Some "t1".
Proof.
  split; [|by repeat split].
  apply (reachable_step (initial_world ∅) (accepting "t1" (user_with_role "user"))
           (DoLogin right_password)).
  constructor.
Qed.

Lemma login_failure_witness :
  (login (rejecting "Invalid credentials") wrong_password (initial_world ∅)).1
  = Threw (mkApiError "Invalid credentials")
  ∧ isAuthenticated
      (store (login (rejecting "Invalid credentials") wrong_password
                (initial_world ∅)).2) = false
  ∧ error
      (store (login (rejecting "Invalid credentials") wrong_password
                (initial_world ∅)).2) = Some "Invalid credentials".
Proof.
  destruct (login_failure (rejecting "Invalid credentials") wrong_password
              (initial_world ∅) (mkApiError "Invalid credentials") eq_refl)
    as (Hthrown & _ & _ & _ & Hstays & Herror & _).
  split; [exact Hthrown|]. split; [by apply Hstays|exact Herror].
Defined.

Lemma checkAuth_rejected_witness :
  localStorage (checkAuth (rejecting "Unauthorized") (initial_world remembered)).2
    !! "authToken" = None
  ∧ isAuthenticated
      (store (checkAuth (rejecting "Unauthorized") (initial_world remembered)).2)
    = false
  ∧ error (store (checkAuth (rejecting "Unauthorized") (initial_world remembered)).2)
    = None.
Proof.
  destruct (checkAuth_rejected (rejecting "Unauthorized") (initial_world remembered)
              "t0" (mkApiError "Unauthorized") eq_refl eq_refl eq_refl)
    as (_ & Hremoved & _ & _ & Hunauth & _ & Herror & _).
  split; [exact Hremoved|]. split; [exact Hunauth|exact Herror].
Defined.

Lemma checkAuth_no_token_witness :
  isAuthenticated
    (store (checkAuth (accepting "t1" (user_with_role "user")) (initial_world ∅)).2)
  = false
  ∧ requests
      (trace (checkAuth (accepting "t1" (user_with_role "user")) (initial_world ∅)).2)
    = [].
Proof.
  assert (Habsent : localStorage (initial_world ∅) !! "authToken" = None)
    by reflexivity.
  destruct (checkAuth_no_token (accepting "t1" (user_with_role "user"))
              (initial_world ∅) Habsent)
    as (_ & Hunauth & _ & Hsilent & _).
  split; [exact Hunauth|exact Hsilent].
Defined.

(** ** Clearing the last error *)

(** Splits on what [checkAuth] finds in the storage and on what the
    server answers. *)
Ltac checkAuth_cases srv w :=
  exec;
  destruct (localStorage w !! "authToken") as [t|] eqn:Hstored; simpl;
  [destruct (Js.truthy t) eqn:Htruthy; simpl;
   [destruct (get_user srv _) as [err|u] eqn:Hanswer; simpl|]|].

Ltac post_cases srv :=
  exec; destruct (post_auth srv _) as [err|res] eqn:Hanswer; simpl.

Lemma checkAuth_keeps_error (srv : Server) (w : World) :
  error (store (checkAuth srv w).2) = error (store w)
  ∧ ∃ rest, trace (checkAuth srv w).2 = trace w ++ rest
            ∧ Forall (λ s, error s = error (store w)) (notifications rest).
Proof.
  checkAuth_cases srv w; (split; [done|]); eexists; flatten_trace;
    (split; [reflexivity|]); simpl; repeat constructor.
Qed.

(** C8, as the store has it.  [login] and [signUp] begin by showing a
    state with [loading] on and [error] absent, before the request is
    sent.  [checkAuth] never writes [error]: it is the same before,
    after, and in every state shown in between. *)
Theorem error_cleared_at_start (srv : Server) (w : World) :
  (∀ c, ∃ s rest,
      trace (login srv c w).2
      = trace w ++ Notified s :: Sent (login_request c w) :: rest
      ∧ error s = None ∧ loading s = true)
  ∧ (∀ e p n r, ∃ s rest,
      trace (signUp srv e p n r w).2
      = trace w ++ Notified s :: Sent (signUp_request e p n r w) :: rest
      ∧ error s = None ∧ loading s = true)
  ∧ (∀ c, clears_error_first (login srv c) w)
  ∧ (∀ e p n r, clears_error_first (signUp srv e p n r) w)
  ∧ error (store (checkAuth srv w).2) = error (store w)
  ∧ (∃ rest, trace (checkAuth srv w).2 = trace w ++ rest
             ∧ Forall (λ s, error s = error (store w)) (notifications rest)).
Proof.
  split; [|split; [|split; [|split]]].
  - intros c. post_cases srv; do 2 eexists; flatten_trace; done.
  - intros e p n r. post_cases srv; do 2 eexists; flatten_trace; done.
  - intros c. unfold clears_error_first.
    post_cases srv; do 2 eexists; flatten_trace; done.
  - intros e p n r. unfold clears_error_first.
    post_cases srv; do 2 eexists; flatten_trace; done.
  - apply checkAuth_keeps_error.
Qed.

(** [checkAuth] on a session that still shows the error of an earlier
    attempt: the error is there in the first state it shows, and after. *)
Lemma checkAuth_keeps_stale_error :
  reachable failed_before
  ∧ error (store failed_before) = Some "Invalid credentials"
  ∧ ¬ clears_error_first (checkAuth (accepting "t0" (user_with_role "user")))
      failed_before
  ∧ error (store (checkAuth (accepting "t0" (user_with_role "user")) failed_before).2)
    = Some "Invalid credentials".
Proof.
  split; [apply reachable_step with (a := DoLogin wrong_password); constructor|].
  split; [reflexivity|]. split; [|reflexivity].
  intros (s & rest & Htrace & Hnone).
  destruct (checkAuth_keeps_error (accepting "t0" (user_with_role "user"))
              failed_before) as (_ & rest' & Htrace' & Hall).
  rewrite Htrace in Htrace'. apply app_inv_head in Htrace'. subst rest'.
  simpl in Hall. apply Forall_cons in Hall as [Hs _].
  rewrite Hnone in Hs. discriminate.
Qed.

(** ** What the actions touch *)

(** [logout] empties the cached list of users and the stats. *)
Lemma logout_resets_cache :
  users (store (logout cached).2) ≠ users (store cached)
  ∧ stats (store (logout cached).2) ≠ stats (store cached).
Proof. split; discriminate. Qed.

(** C9, as the store has it.  [login], [signUp] and [checkAuth] leave the
    cached users and the stats alone; [logout] empties both.  Outside
    the store, an action changes at most the [authToken] entry of the
    storage and the [Authorization] entry of the client's default
    headers, and adds its notifications and requests to the trace. *)
Theorem actions_frame (srv : Server) (a : Action) (w : World) :
  let w' := (run srv a w).2 in
  (a ≠ DoLogout →
     users (store w') = users (store w) ∧ stats (store w') = stats (store w))
  ∧ (a = DoLogout → users (store w') = [] ∧ stats (store w') = None)
  ∧ (∀ k, k ≠ "authToken" → localStorage w' !! k = localStorage w !! k)
  ∧ (∀ k, k ≠ "Authorization" → defaults w' !! k = defaults w !! k)
  ∧ (∃ rest, trace w' = trace w ++ rest).
Proof.
  destruct a as [c|e p n r| |].
  - post_cases srv; (split; [done|]); (split; [done|]);
      (split; [|split]); try done;
      try (by intros k Hk; rewrite lookup_insert_ne);
      eexists; flatten_trace; reflexivity.
  - post_cases srv; (split; [done|]); (split; [done|]);
      (split; [|split]); try done;
      try (by intros k Hk; rewrite lookup_insert_ne);
      eexists; flatten_trace; reflexivity.
  - exec. split; [done|]. split; [done|].
    split; [|split].
    + by intros k Hk; rewrite lookup_delete_ne.
    + by intros k Hk; rewrite lookup_delete_ne.
    + eexists; reflexivity.
  - checkAuth_cases srv w; (split; [done|]); (split; [done|]);
      (split; [|split]); try done;
      try (by intros k Hk; rewrite lookup_insert_ne);
      try (by intros k Hk; rewrite lookup_delete_ne);
      eexists; flatten_trace; reflexivity.
Qed.

Lemma actions_frame_witness :
  users (store (login (accepting "t1" (user_with_role "user")) right_password cached).2)
  = users (store cached)
  ∧ stats (store (login (accepting "t1" (user_with_role "user")) right_password
                    cached).2)
    = stats (store cached)
  ∧ users (store (logout cached).2) = [].
Proof.
  destruct (actions_frame (accepting "t1" (user_with_role "user"))
              (DoLogin right_password) cached) as (Hkept & _).
  destruct (actions_frame (accepting "t1" (user_with_role "user")) DoLogout cached)
    as (_ & Hreset & _).
  destruct Hkept as [Husers Hstats]; [discriminate|].
  destruct Hreset as [Hempty _]; [reflexivity|].
  split; [exact Husers|]. split; [exact Hstats|exact Hempty].
Defined.

(** ** The session invariant *)

(** The store created over a remembered token says [isAuthenticated]
    and has the token, but no current user yet. *)
Lemma hydrated_session_inconsistent :
  reachable (initial_world remembered)
  ∧ isAuthenticated (store (initial_world remembered)) = true
  ∧ token (store (initial_world remembered)) = Some "t0"
  ∧ user (store (initial_world remembered)) = None
  ∧ ¬ consistent (store (initial_world remembered)).
Proof.
  split; [constructor|]. repeat (split; [reflexivity|]).
  intros [Hboth _]. by destruct (Hboth eq_refl) as [_ Huser].
Qed.

Lemma initial_state_hydrated ls :
  user (initial_state ls) = None
  ∧ (isAuthenticated (initial_state ls) = true ↔ token_present (initial_state ls)).
Proof.
  split; [done|]. unfold token_present. simpl.
  destruct (ls !! "authToken") as [t|]; simpl; [|done].
  by destruct (Js.truthy t).
Qed.

Lemma coherent_initial ls : coherent (initial_world ls).
Proof.
  split; unfold token_present, user_present; simpl.
  - destruct (ls !! "authToken") as [t|]; simpl; [|done].
    by destruct (Js.truthy t).
  - done.
  - by intros ->.
Qed.

Lemma coherent_step srv a w : coherent w → coherent (run srv a w).2.
Proof.
  intros [Hflag Huser Hnone]. unfold token_present, user_present in *.
  destruct a as [c|e p n r| |].
  - post_cases srv; split; unfold token_present, user_present; simpl;
      try done; by rewrite lookup_insert_eq.
  - post_cases srv; split; unfold token_present, user_present; simpl;
      try done; by rewrite lookup_insert_eq.
  - exec. by split.
  - checkAuth_cases srv w; split; unfold token_present, user_present; simpl;
      try done; by rewrite Hstored.
Qed.

Lemma reachable_coherent w : reachable w → coherent w.
Proof.
  induction 1 as [ls|w srv a _ IH].
  - apply coherent_initial.
  - by apply coherent_step.
Qed.


(** ** The successful paths of the session actions *)

Ltac exec_all :=
  unfold manage, fetchUsers, getUserById, createUser, updateUser, deleteUser,
    suspendUser, activateUser, fetchUserStats, startup, Rest.call, Rest.call_of
    in *;
  exec.

(** [login] against a server that accepts: the returned token is
    persisted and becomes the default [Authorization] header, the store
    holds the returned user and token and is authenticated and idle
    without error, and the one request sent is the login request. *)
Theorem login_success (srv : Server) (credentials : LoginCredentials) (w : World)
    (res : AuthResponse) :
  post_auth srv (login_request credentials w) = inr res →
  let w' := (login srv credentials w).2 in
  (login srv credentials w).1 = Returned ()
  ∧ user (store w') = Some (auth_user res)
  ∧ token (store w') = Some (access_token res)
  ∧ isAuthenticated (store w') = true
  ∧ loading (store w') = false
  ∧ error (store w') = None
  ∧ localStorage w' = <["authToken" := access_token res]> (localStorage w)
  ∧ defaults w' = <["Authorization" := Bearer (access_token res)]> (defaults w)
  ∧ requests (trace w') = requests (trace w) ++ [login_request credentials w].
Proof.
  intros Haccepted. exec. rewrite Haccepted. simpl.
  repeat (split; [done|]). by read_trace.
Qed.

Lemma login_success_witness :
  token (store (login (accepting "t1" (user_with_role "user")) right_password
                  (initial_world ∅)).2) = Some "t1"
  ∧ localStorage (login (accepting "t1" (user_with_role "user")) right_password
                    (initial_world ∅)).2 !! "authToken" = Some "t1".
Proof.
  destruct (login_success (accepting "t1" (user_with_role "user")) right_password
              (initial_world ∅) (mkAuthResponse "t1" "bearer" (user_with_role "user"))
              eq_refl)
    as (_ & _ & Htoken & _ & _ & _ & Hstored & _).
  split; [exact Htoken|]. rewrite Hstored. apply lookup_insert_eq.
Defined.

(** [signUp] has the contract of [login]: when the server answers the
    registration request as it answers a login request, both actions
    return or throw alike and leave the same store, storage and default
    headers, and show the same states on the way. *)
Theorem signUp_as_login (srv : Server) (e p n : string) (r : option string)
    (c : LoginCredentials) (w : World) :
  post_auth srv (signUp_request e p n r w) = post_auth srv (login_request c w) →
  (signUp srv e p n r w).1 = (login srv c w).1
  ∧ store (signUp srv e p n r w).2 = store (login srv c w).2
  ∧ localStorage (signUp srv e p n r w).2 = localStorage (login srv c w).2
  ∧ defaults (signUp srv e p n r w).2 = defaults (login srv c w).2
  ∧ notifications (trace (signUp srv e p n r w).2)
    = notifications (trace (login srv c w).2)
  ∧ requests (trace (signUp srv e p n r w).2)
    = requests (trace w) ++ [signUp_request e p n r w].
Proof.
  intros Hsame. exec. rewrite Hsame. clear Hsame.
  destruct (post_auth srv _) as [err|res]; simpl;
    repeat (split; [done|]); split; by read_trace.
Qed.

Lemma signUp_as_login_witness :
  store (signUp (accepting "t1" (user_with_role "user")) "someone@example.com"
           "secret" "Some One" None (initial_world ∅)).2
  = store (login (accepting "t1" (user_with_role "user")) right_password
             (initial_world ∅)).2.
Proof.
  by apply (signUp_as_login (accepting "t1" (user_with_role "user"))
              "someone@example.com" "secret" "Some One" None right_password
              (initial_world ∅)).
Defined.

(** [checkAuth] with a persisted token that [/auth/me] accepts: the
    store holds the user the server answered and the persisted token,
    authenticated and idle; the storage is as it was; the token becomes
    the default [Authorization] header; [error] is not touched. *)
Theorem checkAuth_accepted (srv : Server) (w : World) (t : string) (u : User) :
  localStorage w !! "authToken" = Some t →
  Js.truthy t = true →
  get_user srv (me_request t w) = inr u →
  let w' := (checkAuth srv w).2 in
  (checkAuth srv w).1 = Returned ()
  ∧ user (store w') = Some u
  ∧ token (store w') = Some t
  ∧ isAuthenticated (store w') = true
  ∧ loading (store w') = false
  ∧ error (store w') = error (store w)
  ∧ localStorage w' = localStorage w
  ∧ defaults w' = <["Authorization" := Bearer t]> (defaults w)
  ∧ requests (trace w') = requests (trace w) ++ [me_request t w].
Proof.
  intros Hstored Htruthy Haccepted. exec.
  rewrite Hstored. simpl. rewrite Htruthy. simpl. rewrite Haccepted. simpl.
  repeat (split; [done|]). by read_trace.
Qed.

Lemma checkAuth_accepted_witness :
  user (store (checkAuth (accepting "t0" (user_with_role "admin"))
                 (initial_world remembered)).2)
  = Some (user_with_role "admin")
  ∧ token (store (checkAuth (accepting "t0" (user_with_role "admin"))
                    (initial_world remembered)).2) = Some "t0".
Proof.
  destruct (checkAuth_accepted (accepting "t0" (user_with_role "admin"))
              (initial_world remembered) "t0" (user_with_role "admin")
              eq_refl eq_refl eq_refl)
    as (_ & Huser & Htoken & _).
  split; [exact Huser|exact Htoken].
Defined.

(** An empty string in the storage counts as no token at all: the store
    starts unauthenticated without token, and [checkAuth] sends nothing
    and leaves the empty entry where it is. *)
Theorem empty_token_is_no_token (srv : Server) (w : World) :
  localStorage w !! "authToken" = Some "" →
  token (initial_state (localStorage w)) = None
  ∧ isAuthenticated (initial_state (localStorage w)) = false
  ∧ requests (trace (checkAuth srv w).2) = requests (trace w)
  ∧ isAuthenticated (store (checkAuth srv w).2) = false
  ∧ token (store (checkAuth srv w).2) = token (store w)
  ∧ localStorage (checkAuth srv w).2 !! "authToken" = Some "".
Proof.
  intros Hempty. exec. rewrite Hempty. simpl.
  repeat (split; [done|]). split; [by read_trace|done].
Qed.

Lemma empty_token_is_no_token_witness :
  requests (trace (checkAuth (accepting "t1" (user_with_role "user"))
                     (initial_world {["authToken" := ""]})).2) = []
  ∧ localStorage (checkAuth (accepting "t1" (user_with_role "user"))
                    (initial_world {["authToken" := ""]})).2 !! "authToken"
    = Some "".
Proof.
  assert (Hempty : localStorage (initial_world {["authToken" := ""]}) !! "authToken"
                   = Some "") by reflexivity.
  destruct (empty_token_is_no_token (accepting "t1" (user_with_role "user"))
              (initial_world {["authToken" := ""]}) Hempty)
    as (_ & _ & Hsilent & _ & _ & Hkept).
  split; [exact Hsilent|exact Hkept].
Defined.

(** ** api/axiosInstance.ts: the interceptor *)

(** The interceptor only ever writes the [Authorization] header.  With a
    non-empty persisted token that header is the bearer of this token,
    whatever the call or the defaults said; without one (absent or
    empty) the headers are those of the call over the defaults. *)
Theorem interceptor_token_wins (m : Method) (u : string) (d : option Payload)
    (config : gmap string string) (w : World) :
  (∀ k, k ≠ "Authorization" →
        headers (request_of m u d config w) !! k = (config ∪ defaults w) !! k)
  ∧ (∀ t, localStorage w !! "authToken" = Some t → Js.truthy t = true →
          headers (request_of m u d config w) !! "Authorization" = Some (Bearer t))
  ∧ (Js.or_null (localStorage w !! "authToken") = None →
       headers (request_of m u d config w) = config ∪ defaults w
       ∧ (∀ h, config !! "Authorization" = Some h →
               headers (request_of m u d config w) !! "Authorization" = Some h)).
Proof.
  unfold request_of, interceptor. simpl.
  split; [|split].
  - intros k Hk. destruct (localStorage w !! "authToken") as [t|]; [|done].
    destruct (Js.truthy t); [|done]. by rewrite lookup_insert_ne.
  - intros t -> ->. apply lookup_insert_eq.
  - intros Hnone. destruct (localStorage w !! "authToken") as [t|]; simpl in *.
    + destruct (Js.truthy t); [done|].
      split; [done|]. intros h Hh. by apply lookup_union_Some_l.
    + split; [done|]. intros h Hh. by apply lookup_union_Some_l.
Qed.

Lemma interceptor_token_wins_witness :
  headers (request_of GET "/auth/me" None {["Authorization" := "Bearer stale"]}
             (initial_world remembered)) !! "Authorization"
  = Some (Bearer "t0").
Proof.
  destruct (interceptor_token_wins GET "/auth/me" None
              {["Authorization" := "Bearer stale"]} (initial_world remembered))
    as (_ & Hwins & _).
  by apply Hwins.
Defined.

(** ** Between two actions *)

Ltac management_cases srv a :=
  destruct a as [filters|i|d|i d|i|i|i|]; exec_all;
  [destruct (Rest.users_endpoint srv _) as [err|res]
  |destruct (Rest.user_endpoint srv _) as [err|res]
  |destruct (Rest.user_endpoint srv _) as [err|res]
  |destruct (Rest.user_endpoint srv _) as [err|res]
  |destruct (Rest.plain_endpoint srv _) as [err|res]
  |destruct (Rest.plain_endpoint srv _) as [err|res]
  |destruct (Rest.plain_endpoint srv _) as [err|res]
  |destruct (Rest.stats_endpoint srv _) as [err|res]]; simpl.

Lemma settled_initial ls : settled (initial_world ls).
Proof.
  split; simpl; try done.
  - intros t. destruct (ls !! "authToken") as [t'|]; simpl; [|done].
    by destruct (Js.truthy t'); [intros [= ->]|].
  - destruct (ls !! "authToken") as [t'|]; simpl; [|done].
    destruct (Js.truthy t') eqn:Ht; simpl; [by rewrite Ht|done].
  - destruct (ls !! "authToken") as [t'|]; simpl; [|done].
    by destruct (Js.truthy t').
Qed.

Lemma settled_session srv a w : settled w → settled (run srv a w).2.
Proof.
  intros [Hidle Htoken Hstorage Hflag Hheader].
  destruct a as [c|e p n r| |].
  - post_cases srv; split; simpl; try done.
    + intros t [= ->]. apply lookup_insert_eq.
    + by rewrite lookup_insert_eq.
    + intros h. rewrite lookup_insert_eq. intros [= <-].
      eexists. by rewrite lookup_insert_eq.
  - post_cases srv; split; simpl; try done.
    + intros t [= ->]. apply lookup_insert_eq.
    + by rewrite lookup_insert_eq.
    + intros h. rewrite lookup_insert_eq. intros [= <-].
      eexists. by rewrite lookup_insert_eq.
  - exec. split; simpl; try done.
    + by rewrite lookup_delete_eq.
    + intros h. by rewrite lookup_delete_eq.
  - checkAuth_cases srv w; split; simpl;
      rewrite ?Hstored, ?lookup_delete_eq, ?lookup_insert_eq; simpl;
      rewrite ?Htruthy; try done.
    + intros h [= <-]. by eexists.
    + simpl in Hstorage. by rewrite Htruthy in Hstorage.
Qed.

Lemma settled_management srv a w : settled w → settled (manage srv a w).2.
Proof.
  intros [Hidle Htoken Hstorage Hflag Hheader].
  management_cases srv a; by split.
Qed.

Lemma reachable_all_settled w : reachable_all w → settled w.
Proof.
  induction 1 as [ls|w srv a _ IH|w srv a _ IH].
  - apply settled_initial.
  - by apply settled_session.
  - by apply settled_management.
Qed.





(** Between two actions the guard always decides: the store is idle in
    every reachable world, so the guard never shows the spinner there;
    it sends an unauthenticated session to [/login]; and right after a
    [logout] every guarded route, whatever it requires, redirects to
    [/login]. *)
Theorem guard_decides_between_actions {Node : Type} (props : ProtectedRouteProps Node)
    (w : World) :
  reachable_all w →
  loading (store w) = false
  ∧ ProtectedRoute props (store w) ≠ Spinner
  ∧ (isAuthenticated (store w) = false →
       ProtectedRoute props (store w) = Navigate "/login" true)
  ∧ ProtectedRoute props (store (logout w).2) = Navigate "/login" true.
Proof.
  intros [Hidle _ _ _ _]%reachable_all_settled.
  unfold ProtectedRoute. exec. rewrite Hidle.
  split; [done|]. split; [|split; [|done]].
  - destruct (negb _); [done|]. destruct (_ && _); [done|]. by destruct (_ && _).
  - by intros ->.
Qed.

Lemma guard_decides_between_actions_witness :
  ProtectedRoute admin_page (store (logout logged_in).2) = Navigate "/login" true.
Proof.
  assert (Hreach : reachable_all logged_in).
  { apply (all_session (initial_world ∅) (accepting "t1" (user_with_role "user"))
             (DoLogin right_password)).
    constructor. }
  by apply (guard_decides_between_actions admin_page logged_in Hreach).
Defined.

(** The startup check settles the session whatever was persisted and
    whatever the server answers: afterwards the store is idle and the
    equivalence of the spec holds, and the session is authenticated
    exactly when a non-empty token was persisted and [/auth/me] accepted
    it, with the user the server answered and that token. *)
Theorem startup_settles (srv : Server) (ls : gmap string string) :
  loading (store (startup srv ls)) = false
  ∧ consistent (store (startup srv ls))
  ∧ (isAuthenticated (store (startup srv ls)) = true ↔
     ∃ t u, ls !! "authToken" = Some t ∧ Js.truthy t = true
            ∧ get_user srv (me_request t (initial_world ls)) = inr u
            ∧ user (store (startup srv ls)) = Some u
            ∧ token (store (startup srv ls)) = Some t).
Proof.
  unfold consistent, token_present, user_present, startup. exec.
  destruct (ls !! "authToken") as [t|] eqn:Hstored; simpl;
    [destruct (Js.truthy t) eqn:Htruthy; simpl;
     [destruct (get_user srv _) as [err|u] eqn:Hanswer; simpl|]|].
  - split; [done|]. split; [split; [done|by intros [? _]]|].
    split; [done|]. intros (t' & u & [= <-] & _ & Hok & _).
    by rewrite Hanswer in Hok.
  - split; [done|]. split; [split; [by intros _; split|by intros _]|].
    split; [|by intros _]. intros _.
    exists t, u. by repeat split.
  - split; [done|]. split; [split; [done|by intros [_ ?]]|].
    split; [done|]. intros (t' & u & [= <-] & Ht & _). by rewrite Htruthy in Ht.
  - split; [done|]. split; [split; [done|by intros [_ ?]]|].
    split; [done|]. by intros (t' & u & ? & _).
Qed.

Lemma startup_settles_witness :
  isAuthenticated (store (startup (accepting "t0" (user_with_role "admin")) remembered))
  = true.
Proof.
  apply (startup_settles (accepting "t0" (user_with_role "admin")) remembered).
  exists "t0", (user_with_role "admin"). by repeat split.
Defined.

(** ** The user management actions *)


(** Looking a user up replaces the current user of the session:
    [getUserById], when the server answers, puts the answered record in
    [user] and leaves token and [isAuthenticated] alone.  The role
    predicates and the guard then judge the looked-up user: when that
    one is no administrator, a route that requires one redirects, to
    [/dashboard] if the session is authenticated.  On a session without
    token the store ends with a user and no token. *)
Theorem getUserById_replaces_current_user {Node : Type} (srv : Rest.Server)
    (i : string) (w : World) (res : User) (c : Node) (rsa : option bool) :
  Rest.user_endpoint srv (Rest.call_of Rest.GET (Rest.Path ("/users/" +:+ i)) None w)
  = inr res →
  let w' := (getUserById srv i w).2 in
  user (store w') = Some res
  ∧ users (store w') = users (store w)
  ∧ token (store w') = token (store w)
  ∧ isAuthenticated (store w') = isAuthenticated (store w)
  ∧ (getIsAdmin w').1
    = Returned (String.eqb (role res) "admin" || String.eqb (role res) "super_admin")
  ∧ (isAuthenticated (store w) = true →
     String.eqb (role res) "admin" || String.eqb (role res) "super_admin" = false →
     ProtectedRoute (mkProps c (Some true) rsa) (store w') = Navigate "/dashboard" true)
  ∧ (token (store w) = None → user_present (store w') ∧ ¬ token_present (store w')).
Proof.
  intros Hanswer. cbv zeta. rewrite getIsAdmin_run. unfold ProtectedRoute.
  unfold token_present, user_present. exec_all. rewrite Hanswer. simpl.
  repeat (split; [done|]). split.
  - by intros -> ->.
  - intros ->. split; [done|]. by intros ?.
Qed.

Lemma getUserById_replaces_current_user_witness :
  user (store (getUserById (serving [] (customer "u-7") no_stats) "u-7"
                 admin_session).2) = Some (customer "u-7")
  ∧ ProtectedRoute admin_page
      (store (getUserById (serving [] (customer "u-7") no_stats) "u-7"
                admin_session).2)
    = Navigate "/dashboard" true.
Proof.
  destruct (getUserById_replaces_current_user
              (serving [] (customer "u-7") no_stats) "u-7" admin_session
              (customer "u-7") "admin page" None eq_refl)
    as (Huser & _ & _ & _ & _ & Hguard & _).
  split; [exact Huser|]. by apply Hguard.
Defined.

(** [updateUser], when the server answers, puts the answered record in
    place of every listed user with the given id, keeps the others and
    the length of the list, and makes the answered record the current
    user of the session, also when no listed user has that id. *)
Theorem updateUser_success (srv : Rest.Server) (i : string) (d : UserUpdate)
    (w : World) (res : User) :
  Rest.user_endpoint srv
    (Rest.call_of Rest.PUT (Rest.Path ("/users/" +:+ i)) (Some (Rest.UpdateBody d)) w)
  = inr res →
  let w' := (updateUser srv i d w).2 in
  user (store w') = Some res
  ∧ length (users (store w')) = length (users (store w))
  ∧ (∀ k u, users (store w) !! k = Some u →
            users (store w') !! k = Some (if decide (id u = i) then res else u))
  ∧ ((∀ u, u ∈ users (store w) → id u ≠ i) → users (store w') = users (store w))
  ∧ stats (store w') = stats (store w)
  ∧ token (store w') = token (store w)
  ∧ isAuthenticated (store w') = isAuthenticated (store w).
Proof.
  intros Hanswer. exec_all. rewrite Hanswer. simpl.
  split; [done|]. split; [apply length_fmap|].
  split; [|split; [|done]].
  - intros k u Hk. by rewrite list_lookup_fmap, Hk.
  - intros Hfresh. rewrite <- (list_fmap_id (users (store w))) at 2.
    apply list_fmap_ext. intros k u Hk. simpl.
    destruct (decide (id u = i)) as [Heq|]; [|done].
    by destruct (Hfresh u (list_elem_of_lookup_2 _ _ _ Hk)).
Qed.

Lemma updateUser_success_witness :
  user (store (updateUser (serving [] (customer "u-7") no_stats) "u-7"
                 (mkUserUpdate None None None None None None) cached).2)
  = Some (customer "u-7")
  ∧ users (store (updateUser (serving [] (customer "u-7") no_stats) "u-7"
                    (mkUserUpdate None None None None None None) cached).2)
    = users (store cached).
Proof.
  destruct (updateUser_success (serving [] (customer "u-7") no_stats) "u-7"
              (mkUserUpdate None None None None None None) cached
              (customer "u-7") eq_refl)
    as (Huser & _ & _ & Hsame & _).
  split; [exact Huser|]. apply Hsame.
  intros u Hu. apply list_elem_of_singleton in Hu. by subst u.
Defined.

(** [deleteUser], when the server answers, removes every listed user
    with the given id and nothing else: the remaining users are the
    others, in their order; the list is unchanged when no user had the
    id; the current user of the session is kept, even if it is the
    deleted one. *)
Theorem deleteUser_success (srv : Rest.Server) (i : string) (w : World) :
  (∃ ok, Rest.plain_endpoint srv
           (Rest.call_of Rest.DELETE (Rest.Path ("/users/" +:+ i)) None w) = inr ok) →
  let w' := (deleteUser srv i w).2 in
  (∀ u, u ∈ users (store w') ↔ u ∈ users (store w) ∧ id u ≠ i)
  ∧ users (store w') `sublist_of` users (store w)
  ∧ (length (users (store w')) ≤ length (users (store w)))%nat
  ∧ ((∀ u, u ∈ users (store w) → id u ≠ i) → users (store w') = users (store w))
  ∧ user (store w') = user (store w)
  ∧ error (store w') = None.
Proof.
  intros [ok Hanswer]. exec_all. rewrite Hanswer. simpl.
  split; [|split; [|split; [|split]]].
  - intros u. rewrite list_elem_of_filter. tauto.
  - apply sublist_filter.
  - apply length_filter.
  - intros Hfresh. induction (users (store w)) as [|u l IH]; [done|].
    rewrite filter_cons.
    destruct (decide (id u ≠ i)) as [_|Hu].
    + f_equal. apply IH. intros u' Hu'. apply Hfresh. by right.
    + destruct Hu. apply Hfresh. by left.
  - done.
Qed.

Lemma deleteUser_success_witness :
  users (store (deleteUser (serving [] (customer "u-7") no_stats) "u-1" cached).2) = []
  ∧ user (store (deleteUser (serving [] (customer "u-7") no_stats) "u-1" cached).2)
    = Some (user_with_role "admin").
Proof.
  assert (Hok : ∃ ok, Rest.plain_endpoint (serving [] (customer "u-7") no_stats)
                        (Rest.call_of Rest.DELETE (Rest.Path ("/users/" +:+ "u-1"))
                           None cached) = inr ok) by (by exists ()).
  destruct (deleteUser_success (serving [] (customer "u-7") no_stats) "u-1" cached Hok)
    as (Hin & _ & _ & _ & Huser & _).
  split; [|exact Huser].
  destruct (users (store (deleteUser _ "u-1" cached).2)) as [|u l] eqn:Hl; [done|].
  destruct (Hin u) as [Hu _]. destruct Hu as [_ Hu]; [by left|]. by destruct Hu.
Defined.

Lemma with_account_status_id status u : id (with_account_status status u) = id u.
Proof. done. Qed.

(** [suspendUser], when the server answers, marks every listed user
    with the given id as suspended and changes nothing else: the same
    users are listed in the same order, the others are untouched, and a
    marked user differs from the old one in [account_status] only.  The
    current user of the session is not updated, even if it is the
    suspended one. *)
Theorem suspendUser_success (srv : Rest.Server) (i : string) (w : World) :
  (∃ ok, Rest.plain_endpoint srv
           (Rest.call_of Rest.POST (Rest.Path ("/users/" +:+ i +:+ "/suspend")) None w)
         = inr ok) →
  let w' := (suspendUser srv i w).2 in
  id <$> users (store w') = id <$> users (store w)
  ∧ (∀ k u, users (store w) !! k = Some u →
            users (store w') !! k
            = Some (if decide (id u = i) then with_account_status "suspended" u else u))
  ∧ (∀ u, u ∈ users (store w') → id u = i → account_status u = "suspended")
  ∧ (∀ k u u', users (store w) !! k = Some u → users (store w') !! k = Some u' →
               email u' = email u ∧ full_name u' = full_name u ∧ role u' = role u)
  ∧ user (store w') = user (store w).
Proof.
  intros [ok Hanswer]. exec_all. rewrite Hanswer. simpl.
  split; [|split; [|split; [|split; [|done]]]].
  - rewrite <- list_fmap_compose. apply list_fmap_ext. intros k u _. simpl.
    by destruct (decide (id u = i)).
  - intros k u Hk. by rewrite list_lookup_fmap, Hk.
  - intros u' [u [-> _]]%list_elem_of_fmap.
    by destruct (decide (id u = i)).
  - intros k u u' Hk. rewrite list_lookup_fmap, Hk. simpl. intros [= <-].
    by destruct (decide (id u = i)).
Qed.

Lemma suspendUser_success_witness :
  account_status <$> users (store (suspendUser (serving [] (customer "u-7") no_stats)
                                     "u-1" cached).2) = ["suspended"]
  ∧ user (store (suspendUser (serving [] (customer "u-7") no_stats) "u-1" cached).2)
    = Some (user_with_role "admin").
Proof.
  assert (Hok : ∃ ok, Rest.plain_endpoint (serving [] (customer "u-7") no_stats)
                        (Rest.call_of Rest.POST
                           (Rest.Path ("/users/" +:+ "u-1" +:+ "/suspend")) None cached)
                      = inr ok) by (by exists ()).
  destruct (suspendUser_success (serving [] (customer "u-7") no_stats) "u-1" cached Hok)
    as (_ & Hat & _ & _ & Huser).
  split; [|exact Huser].
  apply list_eq. intros [|k]; [|done].
  rewrite list_lookup_fmap, (Hat 0 (user_with_role "user") eq_refl). done.
Defined.

(** Activating undoes suspending: when the server answers both calls,
    [suspendUser] followed by [activateUser] for the same id lists the
    users that [activateUser] alone would list, all users with that id
    being active; and suspending twice is suspending once. *)
Theorem suspend_then_activate (srv : Rest.Server) (i : string) (w : World) :
  (∃ ok, Rest.plain_endpoint srv
           (Rest.call_of Rest.POST (Rest.Path ("/users/" +:+ i +:+ "/suspend")) None w)
         = inr ok) →
  (∃ ok, Rest.plain_endpoint srv
           (Rest.call_of Rest.POST (Rest.Path ("/users/" +:+ i +:+ "/activate")) None w)
         = inr ok) →
  users (store (activateUser srv i (suspendUser srv i w).2).2)
  = users (store (activateUser srv i w).2)
  ∧ (∀ u, u ∈ users (store (activateUser srv i (suspendUser srv i w).2).2) →
          id u = i → account_status u = "active")
  ∧ users (store (suspendUser srv i (suspendUser srv i w).2).2)
    = users (store (suspendUser srv i w).2).
Proof.
  intros [ok Hsuspend] [ok' Hactivate]. exec_all.
  rewrite Hsuspend. simpl. rewrite Hactivate, Hsuspend. simpl.
  split; [|split].
  - rewrite <- list_fmap_compose. apply list_fmap_ext. intros k u _. simpl.
    destruct (decide (id u = i)) as [Hu|Hu]; simpl;
      by destruct (decide (_ = i)).
  - intros u2 [u1 [-> [u [-> _]]%list_elem_of_fmap]]%list_elem_of_fmap.
    destruct (decide (id u = i)) as [Hu|Hu]; simpl;
      by destruct (decide (_ = i)).
  - rewrite <- list_fmap_compose. apply list_fmap_ext. intros k u _. simpl.
    destruct (decide (id u = i)) as [Hu|Hu]; simpl;
      by destruct (decide (_ = i)).
Qed.

Lemma suspend_then_activate_witness :
  users (store (activateUser (serving [] (customer "u-7") no_stats) "u-1"
                  (suspendUser (serving [] (customer "u-7") no_stats) "u-1"
                     cached).2).2)
  = users (store cached).
Proof.
  assert (Hsuspend : ∃ ok, Rest.plain_endpoint (serving [] (customer "u-7") no_stats)
                        (Rest.call_of Rest.POST
                           (Rest.Path ("/users/" +:+ "u-1" +:+ "/suspend")) None cached)
                      = inr ok) by (by exists ()).
  assert (Hactivate : ∃ ok, Rest.plain_endpoint (serving [] (customer "u-7") no_stats)
                        (Rest.call_of Rest.POST
                           (Rest.Path ("/users/" +:+ "u-1" +:+ "/activate")) None cached)
                      = inr ok) by (by exists ()).
  destruct (suspend_then_activate (serving [] (customer "u-7") no_stats) "u-1" cached
              Hsuspend Hactivate) as (Hsame & _).
  rewrite Hsame. reflexivity.
Defined.

(** [createUser], when the server answers, puts the answered record at
    the end of the list and keeps what was listed, without looking for
    a listed user with the same id. *)
Theorem createUser_appends (srv : Rest.Server) (d : UserCreate) (w : World)
    (res : User) :
  Rest.user_endpoint srv
    (Rest.call_of Rest.POST (Rest.Path "/users") (Some (Rest.CreateBody d)) w)
  = inr res →
  let w' := (createUser srv d w).2 in
  users (store w') = users (store w) ++ [res]
  ∧ length (users (store w')) = S (length (users (store w)))
  ∧ (∀ k u, users (store w) !! k = Some u → users (store w') !! k = Some u)
  ∧ users (store w') !! length (users (store w)) = Some res
  ∧ user (store w') = user (store w).
Proof.
  intros Hanswer. exec_all. rewrite Hanswer. simpl.
  split; [done|]. split; [|split; [|split; [|done]]].
  - rewrite length_app. simpl. lia.
  - intros k u Hk. by apply lookup_app_l_Some.
  - by rewrite list_lookup_middle.
Qed.

Lemma createUser_appends_witness :
  users (store (createUser (serving [] (customer "u-7") no_stats)
                  (mkUserCreate "customer@example.com" "A Customer" "secret"
                     None None None None None) cached).2)
  = [user_with_role "user"; customer "u-7"].
Proof.
  by apply (createUser_appends (serving [] (customer "u-7") no_stats)
              (mkUserCreate "customer@example.com" "A Customer" "secret"
                 None None None None None) cached (customer "u-7")).
Defined.

(** Deleting what was just created: when the server answers both
    calls, [createUser] followed by [deleteUser] of the created id
    leaves the listed users without that id; if no listed user had it
    before, the list is back to what it was. *)
Theorem create_then_delete (srv : Rest.Server) (d : UserCreate) (w : World)
    (res : User) :
  Rest.user_endpoint srv
    (Rest.call_of Rest.POST (Rest.Path "/users") (Some (Rest.CreateBody d)) w)
  = inr res →
  (∃ ok, Rest.plain_endpoint srv
           (Rest.call_of Rest.DELETE (Rest.Path ("/users/" +:+ id res)) None w)
         = inr ok) →
  let w' := (deleteUser srv (id res) (createUser srv d w).2).2 in
  users (store w') = filter (λ u, id u ≠ id res) (users (store w))
  ∧ ((∀ u, u ∈ users (store w) → id u ≠ id res) → users (store w') = users (store w)).
Proof.
  intros Hcreate [ok Hdelete]. exec_all. rewrite Hcreate. simpl.
  rewrite Hdelete. simpl.
  assert (Hfilter : filter (λ u, id u ≠ id res) (users (store w) ++ [res])
                    = filter (λ u, id u ≠ id res) (users (store w))).
  { rewrite filter_app, filter_cons, filter_nil.
    destruct (decide (id res ≠ id res)); [done|]. apply app_nil_r. }
  rewrite Hfilter. split; [done|].
  intros Hfresh. induction (users (store w)) as [|u l IH]; [done|].
  rewrite filter_cons. destruct (decide (id u ≠ id res)) as [_|Hu].
  - f_equal. apply IH; [|intros u' Hu'; apply Hfresh; by right].
    rewrite filter_app, filter_cons, filter_nil.
    destruct (decide (id res ≠ id res)); [done|]. apply app_nil_r.
  - destruct Hu. apply Hfresh. by left.
Qed.

Lemma create_then_delete_witness :
  users (store (deleteUser (serving [] (customer "u-7") no_stats) "u-7"
                  (createUser (serving [] (customer "u-7") no_stats)
                     (mkUserCreate "customer@example.com" "A Customer" "secret"
                        None None None None None) cached).2).2)
  = users (store cached).
Proof.
  assert (Hok : ∃ ok, Rest.plain_endpoint (serving [] (customer "u-7") no_stats)
                        (Rest.call_of Rest.DELETE
                           (Rest.Path ("/users/" +:+ id (customer "u-7"))) None cached)
                      = inr ok) by (by exists ()).
  destruct (create_then_delete (serving [] (customer "u-7") no_stats)
              (mkUserCreate "customer@example.com" "A Customer" "secret"
                 None None None None None) cached (customer "u-7") eq_refl Hok)
    as (_ & Hback).
  apply Hback. intros u Hu. apply list_elem_of_singleton in Hu. by subst u.
Defined.

Lemma truthy_spec s : Js.truthy s = true ↔ s ≠ "".
Proof. unfold Js.truthy. by destruct s. Qed.

Lemma or_null_Some o s : Js.or_null o = Some s ↔ o = Some s ∧ s ≠ "".
Proof.
  destruct o as [x|]; simpl; [|intuition congruence].
  destruct (Js.truthy x) eqn:Hx.
  - apply truthy_spec in Hx. intuition congruence.
  - assert (x = "") as -> by (by destruct x). intuition congruence.
Qed.

Lemma append_if_elem k v params k' v' :
  (k', v') ∈ append_if k v params ↔
  (k', v') ∈ params ∨ (k' = k ∧ v = Some v' ∧ v' ≠ "").
Proof.
  unfold append_if. destruct (Js.or_null v) as [x|] eqn:Hx.
  - apply or_null_Some in Hx as [-> Hx].
    rewrite elem_of_app, list_elem_of_singleton. intuition congruence.
  - split; [by left|]. intros [?|(_ & Hv & Hne)]; [done|].
    assert (Js.or_null v = Some v') as Hsome by (by apply or_null_Some).
    by rewrite Hx in Hsome.
Qed.

(** [fetchUsers] asks for [/users?] with exactly the filters that are
    given and non-empty, in the order search, role, status, each at
    most once; an empty filter is the same as none.  When the server
    answers, the answered list replaces the listed users whatever they
    were, and the current user and the stats are kept. *)
Theorem fetchUsers_success (srv : Rest.Server) (filters : Filters) (w : World)
    (res : list User) :
  Rest.users_endpoint srv
    (Rest.call_of Rest.GET (Rest.Query "/users" (params_of filters)) None w)
  = inr res →
  let w' := (fetchUsers srv filters w).2 in
  users (store w') = res
  ∧ user (store w') = user (store w)
  ∧ stats (store w') = stats (store w)
  ∧ error (store w') = None
  ∧ (∀ k v, (k, v) ∈ params_of filters ↔
            v ≠ "" ∧ ((k = "search" ∧ filter_search filters = Some v)
                      ∨ (k = "role" ∧ filter_role filters = Some v)
                      ∨ (k = "status" ∧ filter_status filters = Some v)))
  ∧ (params_of filters).*1 `sublist_of` ["search"; "role"; "status"]
  ∧ params_of filters
    = params_of (mkFilters (Js.or_null (filter_search filters))
                   (Js.or_null (filter_role filters))
                   (Js.or_null (filter_status filters))).
Proof.
  intros Hanswer. exec_all. rewrite Hanswer. simpl.
  repeat (split; [done|]). split; [|split].
  - intros k v. unfold params_of. rewrite !append_if_elem, elem_of_nil.
    intuition congruence.
  - unfold params_of, append_if.
    destruct (Js.or_null (filter_search filters)),
      (Js.or_null (filter_role filters)), (Js.or_null (filter_status filters));
      simpl; repeat first [apply sublist_nil | apply sublist_skip
                           | apply sublist_cons].
  - unfold params_of, append_if. simpl.
    assert (Hidem : ∀ o, Js.or_null (Js.or_null o) = Js.or_null o).
    { intros [x|]; simpl; [|done]. destruct (Js.truthy x) eqn:Hx; simpl; [|done].
      by rewrite Hx. }
    by rewrite !Hidem.
Qed.

Lemma fetchUsers_success_witness :
  users (store (fetchUsers (serving [customer "u-7"] (customer "u-7") no_stats)
                  (mkFilters (Some "") (Some "user") None) cached).2)
  = [customer "u-7"]
  ∧ params_of (mkFilters (Some "") (Some "user") None) = [("role", "user")].
Proof.
  destruct (fetchUsers_success (serving [customer "u-7"] (customer "u-7") no_stats)
              (mkFilters (Some "") (Some "user") None) cached [customer "u-7"] eq_refl)
    as (Husers & _).
  split; [exact Husers|reflexivity].
Defined.

(** ** The login page *)

Lemma or_else_truthy a b : b ≠ "" → or_else a b ≠ "".
Proof.
  intros Hb. unfold or_else. destruct (Js.or_null a) as [s|] eqn:Hs; [|done].
  by apply or_null_Some in Hs as [_ ?].
Qed.

(** A successful submission navigates where the guard lets the user in:
    the page ends idle without error, goes to [/admin] exactly when the
    user just logged in passes the admin check and to [/dashboard]
    otherwise, and the guard renders the children of a route that only
    needs authentication, and of a route that requires an administrator
    when the page went to [/admin]. *)
Theorem handleSubmit_success {Node : Type} (detail : ApiError → Detail)
    (srv : Server) (email password : string) (w : World) (c : Node) :
  (login srv (mkLoginCredentials email password) w).1 = Returned () →
  let view := (handleSubmit detail srv email password w).1 in
  let w' := (handleSubmit detail srv email password w).2 in
  w' = (login srv (mkLoginCredentials email password) w).2
  ∧ view_loading view = false
  ∧ view_error view = ""
  ∧ (navigated view = Some "/admin" ↔ (getIsAdmin w').1 = Returned true)
  ∧ (navigated view = Some "/dashboard" ↔ (getIsAdmin w').1 = Returned false)
  ∧ ProtectedRoute (mkProps c None None) (store w') = Fragment c
  ∧ (navigated view = Some "/admin" →
     ProtectedRoute (mkProps c (Some true) None) (store w') = Fragment c).
Proof.
  unfold handleSubmit. cbv zeta. rewrite getIsAdmin_run. unfold ProtectedRoute.
  post_cases srv; [done|]. intros _.
  repeat (split; [done|]).
  destruct (String.eqb _ "admin" || String.eqb _ "super_admin"); simpl;
    by repeat split.
Qed.

Lemma handleSubmit_success_witness :
  navigated (handleSubmit (λ _, NoDetail) (accepting "t1" (user_with_role "super_admin"))
               "someone@example.com" "secret" (initial_world ∅)).1 = Some "/admin"
  ∧ navigated (handleSubmit (λ _, NoDetail) (accepting "t1" (user_with_role "user"))
                 "someone@example.com" "secret" (initial_world ∅)).1
    = Some "/dashboard".
Proof.
  destruct (handleSubmit_success (λ _, NoDetail)
              (accepting "t1" (user_with_role "super_admin"))
              "someone@example.com" "secret" (initial_world ∅) () eq_refl)
    as (_ & _ & _ & Hadmin & _).
  destruct (handleSubmit_success (λ _, NoDetail) (accepting "t1" (user_with_role "user"))
              "someone@example.com" "secret" (initial_world ∅) () eq_refl)
    as (_ & _ & _ & _ & Huser & _).
  split; [by apply Hadmin|by apply Huser].
Defined.


(** ** The chat widget *)

Lemma prefix_spec (route pathname : string) :
  String.prefix route pathname = true ↔ ∃ rest, pathname = route +:+ rest.
Proof.
  revert pathname. induction route as [|a route IH]; intros pathname.
  - split; [intros _; by exists pathname|]. intros _. by destruct pathname.
  - destruct pathname as [|b pathname]; simpl.
    + split; [done|]. by intros [rest ?].
    + destruct (Ascii.ascii_dec a b) as [->|Hab].
      * rewrite IH. split; intros [rest Hrest]; exists rest; [by rewrite Hrest|].
        by injection Hrest.
      * split; [done|]. intros [rest [= ? _]]. by destruct Hab.
Qed.

(** The widget is hidden exactly on the paths that begin with one of
    the routes to hide, so with a path all the paths below it are
    hidden too; without routes it is shown everywhere, and an empty
    route hides it everywhere. *)
Theorem shouldHide_spec (hideOnRoutes : list string) (pathname : string) :
  (shouldHide hideOnRoutes pathname = true ↔
   ∃ route rest, route ∈ hideOnRoutes ∧ pathname = route +:+ rest)
  ∧ (shouldHide hideOnRoutes pathname = true →
     ∀ below, shouldHide hideOnRoutes (pathname +:+ below) = true)
  ∧ shouldHide [] pathname = false
  ∧ ("" ∈ hideOnRoutes → shouldHide hideOnRoutes pathname = true).
Proof.
  assert (Hspec : ∀ p, shouldHide hideOnRoutes p = true ↔
                       ∃ route rest, route ∈ hideOnRoutes ∧ p = route +:+ rest).
  { intros p. unfold shouldHide.
    induction hideOnRoutes as [|route routes IH]; simpl.
    - split; [done|]. intros (route & rest & Hin & _). by apply elem_of_nil in Hin.
    - rewrite orb_true_iff, IH, prefix_spec. split.
      + intros [[rest ->]|(route' & rest & Hin & ->)].
        * exists route, rest. split; [by left|done].
        * exists route', rest. split; [by right|done].
      + intros (route' & rest & Hin & ->). apply elem_of_cons in Hin as [->|Hin].
        * left. by exists rest.
        * right. by exists route', rest. }
  split; [apply Hspec|]. split; [|split; [done|]].
  - intros (route & rest & Hin & ->)%Hspec below. apply Hspec.
    exists route, (rest +:+ below). split; [done|].
    clear. induction route as [|a route IH]; [done|].
    change (String a ((route +:+ rest) +:+ below)
            = String a (route +:+ rest +:+ below)).
    by rewrite IH.
  - intros Hin. apply Hspec. by exists "", pathname.
Qed.

Lemma shouldHide_spec_witness :
  shouldHide ["/admin"; "/login"] ("/admin" +:+ "/users") = true.
Proof.
  destruct (shouldHide_spec ["/admin"; "/login"] "/admin") as (_ & Hbelow & _).
  by apply Hbelow.
Defined.

(** The attributes handed to the widget: always the id and the email of
    the user and a name that is never empty, the full name or, when
    that is empty, ["Unknown User"]; the role and the company exactly
    when they are non-empty; and nothing else.  Without a user no
    attributes are set. *)
Theorem attributes_of_user (u : User) :
  widget_attributes None = None
  ∧ widget_attributes (Some u) = Some (attributes_of u)
  ∧ attributes_of u !! "userId" = Some (id u)
  ∧ attributes_of u !! "email" = Some (email u)
  ∧ (∃ n, attributes_of u !! "name" = Some n ∧ n ≠ ""
          ∧ (full_name u ≠ "" → n = full_name u)
          ∧ (full_name u = "" → n = "Unknown User"))
  ∧ attributes_of u !! "role" = Js.or_null (Some (role u))
  ∧ attributes_of u !! "company" = Js.or_null (company_name u)
  ∧ (∀ k v, attributes_of u !! k = Some v →
            k ∈ ["name"; "email"; "userId"; "role"; "company"]).
Proof.
  split; [done|]. split; [done|].
  assert (Hemail : or_else (Some (email u)) "" = email u).
  { unfold or_else. simpl. destruct (Js.truthy (email u)) eqn:He; [done|].
    by destruct (email u). }
  unfold attributes_of. rewrite Hemail. clear Hemail.
  destruct (Js.truthy (role u)) eqn:Hrole;
    destruct (Js.or_null (company_name u)) as [company|] eqn:Hcompany; simpl;
    rewrite ?Hrole;
    (split; [by simplify_map_eq|]); (split; [by simplify_map_eq|]);
    (split; [eexists; split; [by simplify_map_eq|]; split;
             [by apply or_else_truthy|];
             unfold or_else; simpl;
             split; [by intros ->%truthy_spec|by intros ->]|]);
    (split; [by simplify_map_eq|]); (split; [by simplify_map_eq|]);
    intros k v; rewrite ?lookup_insert_Some, lookup_singleton_Some;
    rewrite !elem_of_cons; intuition.
Qed.

Lemma attributes_of_user_witness :
  attributes_of (customer "u-7") !! "company" = Some "Acme"
  ∧ attributes_of (customer "u-7") !! "role" = Some "user".
Proof.
  destruct (attributes_of_user (customer "u-7")) as (_ & _ & _ & _ & _ & Hrole & Hcompany & _).
  split; [exact Hcompany|exact Hrole].
Defined.

(** ** The session invariant, over all the actions of the store *)

Lemma reachable_is_reachable_all w : reachable w → reachable_all w.
Proof.
  induction 1 as [ls|w srv a _ IH]; [constructor|by apply all_session].
Qed.

(** An unauthenticated store has no token, unless an empty token is
    persisted. *)
Lemma reachable_all_unauthenticated w :
  reachable_all w →
  isAuthenticated (store w) = false →
  token (store w) = None ∨ localStorage w !! "authToken" = Some "".
Proof.
  induction 1 as [ls|w srv a Hw IH|w srv a Hw IH].
  - simpl. destruct (ls !! "authToken") as [t|]; simpl; [|by left].
    destruct (Js.truthy t); [done|by left].
  - apply reachable_all_settled in Hw as [_ Htoken _ _ _].
    destruct a as [c|e p n r| |].
    + post_cases srv; [done|]. by intros ?.
    + post_cases srv; [done|]. by intros ?.
    + exec. by left.
    + checkAuth_cases srv w; intros Hunauth; try by left.
      * right. by destruct t.
      * left. destruct (token (store w)) as [t|]; [|done].
        by specialize (Htoken t eq_refl).
  - management_cases srv a; done.
Qed.

Lemma thrown_is_failed_login srv a w :
  (run srv a w).1 ≠ Returned () →
  user (store (run srv a w).2) = user (store w)
  ∧ token (store (run srv a w).2) = token (store w)
  ∧ isAuthenticated (store (run srv a w).2) = isAuthenticated (store w).
Proof.
  destruct a as [c|e p n r| |].
  - post_cases srv; [done|]. by intros [].
  - post_cases srv; [done|]. by intros [].
  - exec. by intros [].
  - checkAuth_cases srv w; by intros [].
Qed.

(** C1, as the store has it, with the actions taken one at a time.  The
    store starts without current user and with [isAuthenticated]
    exactly when it starts with a token.  In every world reached with
    the actions of the store, [isAuthenticated] implies that the token
    is present; in the worlds reached with [login], [signUp], [logout]
    and [checkAuth] alone, a present current user implies it too
    ([getUserById] and [updateUser] write the current user without a
    token).  The equivalence of the spec holds after every session
    action that returns, for [checkAuth] unless the persisted token is
    the empty string.  A session action that throws, which is a failed
    [login] or [signUp], leaves current user, token and
    [isAuthenticated] as they were, so that the equivalence holds after
    it exactly when it held before.  The management actions keep the
    equivalence, unless the persisted token is the empty string. *)
Theorem session_invariant (w : World) :
  reachable_all w →
  (∀ ls, user (initial_state ls) = None
         ∧ (isAuthenticated (initial_state ls) = true
            ↔ token_present (initial_state ls)))
  ∧ (isAuthenticated (store w) = true → token_present (store w))
  ∧ (reachable w → user_present (store w) → token_present (store w))
  ∧ (∀ srv a, (run srv a w).1 = Returned () →
       (a = DoCheckAuth → localStorage w !! "authToken" ≠ Some "") →
       consistent (store (run srv a w).2))
  ∧ (∀ srv a, (run srv a w).1 ≠ Returned () →
       (user (store (run srv a w).2) = user (store w)
        ∧ token (store (run srv a w).2) = token (store w)
        ∧ isAuthenticated (store (run srv a w).2) = isAuthenticated (store w))
       ∧ (consistent (store (run srv a w).2) ↔ consistent (store w)))
  ∧ (∀ srv a, localStorage w !! "authToken" ≠ Some "" →
       consistent (store w) → consistent (store (manage srv a w).2)).
Proof.
  intros Hw.
  pose proof (reachable_all_unauthenticated w Hw) as Hunauth.
  pose proof (reachable_all_settled w Hw) as [_ Htoken _ Hflag _].
  split; [apply initial_state_hydrated|]. split; [done|].
  split; [by intros [_ Huser _]%reachable_coherent|].
  split; [|split].
  - intros srv a. unfold consistent, token_present, user_present.
    destruct a as [c|e p n r| |].
    + post_cases srv; [done|]. by intros _ _.
    + post_cases srv; [done|]. by intros _ _.
    + exec. intros _ _. split; [done|]. by intros [? _].
    + intros _ Hnonempty. specialize (Hnonempty eq_refl).
      checkAuth_cases srv w.
      * split; [done|]. by intros [? _].
      * done.
      * by destruct t.
      * split; [done|]. intros [Ht _].
        destruct (token (store w)) as [t|]; [|done].
        by specialize (Htoken t eq_refl).
  - intros srv a Hthrown.
    destruct (thrown_is_failed_login srv a w Hthrown) as (Hu & Ht & Ha).
    split; [done|]. unfold consistent, token_present, user_present.
    by rewrite Hu, Ht, Ha.
  - intros srv a Hnonempty.
    unfold consistent, token_present, user_present.
    assert (Hcases : isAuthenticated (store w) = true ∨ token (store w) = None).
    { destruct (isAuthenticated (store w)) eqn:Hauth; [by left|right].
      by destruct (Hunauth eq_refl). }
    management_cases srv a; try done; intros Hconsistent;
      (destruct Hcases as [Hauth|Hnone];
       [rewrite Hauth in *; split; [intros _|done];
        split; [by apply Hconsistent|done]
       |rewrite Hnone in *; split; [by intros ?%Hflag|by intros [? _]]]).
Qed.

Lemma session_invariant_witness :
  consistent (store (logout (initial_world remembered)).2)
  ∧ consistent
      (store (checkAuth (rejecting "Unauthorized") (initial_world remembered)).2).
Proof.
  destruct (session_invariant (initial_world remembered) (all_initial remembered))
    as (_ & _ & _ & Hreturns & _).
  split.
  - by apply (Hreturns (rejecting "Unauthorized") DoLogout).
  - apply (Hreturns (rejecting "Unauthorized") DoCheckAuth); [done|].
    intros _. discriminate.
Defined.

(** ** Failures of the management actions *)



(** ** A failed submission of the login page *)

(** A failed submission does not navigate and ends idle, with the store
    keeping the message of the error.  The page puts in its error state
    the detail of the error whenever that is truthy: as a text when it
    is a string, and as it came when it is not a string.  Otherwise it
    shows the message of the error if that is non-empty, else ["Failed
    to sign in"].  So the page shows a text, and then never an empty
    one, exactly when the detail is not a truthy value other than a
    string. *)
Theorem handleSubmit_failure (detail : ApiError → Detail) (srv : Server)
    (email password : string) (w : World) (failure : ApiError) :
  (login srv (mkLoginCredentials email password) w).1 = Threw failure →
  let view := (handleSubmit detail srv email password w).1 in
  let w' := (handleSubmit detail srv email password w).2 in
  view_loading view = false
  ∧ navigated view = None
  ∧ error (store w') = Some (message failure)
  ∧ (view_error view = RawDetail ↔ detail failure = DetailOther true)
  ∧ (detail failure ≠ DetailOther true →
     ∃ s, view_error view = Text s ∧ s ≠ "")
  ∧ (∀ s, detail failure = DetailText s → s ≠ "" → view_error view = Text s)
  ∧ (detail_truthy (detail failure) = false → message failure ≠ "" →
     view_error view = Text (message failure))
  ∧ (detail_truthy (detail failure) = false → message failure = "" →
     view_error view = Text "Failed to sign in").
Proof.
  unfold handleSubmit. cbv zeta.
  post_cases srv; [|done]. intros [= ->]. simpl.
  repeat (split; [done|]).
  assert (Hfallback : or_else (Some (message failure)) "Failed to sign in" ≠ "")
    by (by apply or_else_truthy).
  unfold detail_or.
  destruct (detail failure) as [|s|[|]] eqn:Hdetail; simpl.
  - split; [done|]. split; [by eexists|]. split; [done|].
    split.
    + intros _ Hne. unfold or_else.
      by rewrite (proj2 (or_null_Some _ _) (conj eq_refl Hne)).
    + by intros _ ->.
  - destruct (Js.truthy s) eqn:Hs.
    + apply truthy_spec in Hs. split; [done|]. split; [by eexists|].
      split; [by intros ? [= <-]|]. by split.
    + assert (s = "") as -> by (by destruct s).
      split; [done|]. split; [by eexists|]. split; [by intros ? [= <-]|].
      split.
      * intros _ Hne. unfold or_else.
        by rewrite (proj2 (or_null_Some _ _) (conj eq_refl Hne)).
      * by intros _ ->.
  - split; [done|]. split; [done|]. by repeat split.
  - split; [done|]. split; [by eexists|]. split; [done|].
    split.
    + intros _ Hne. unfold or_else.
      by rewrite (proj2 (or_null_Some _ _) (conj eq_refl Hne)).
    + by intros _ ->.
Qed.

Lemma handleSubmit_failure_witness :
  view_error (handleSubmit (λ _, DetailText "Incorrect email or password")
                (rejecting "Request failed with status code 401")
                "someone@example.com" "wrong" (initial_world ∅)).1
  = Text "Incorrect email or password"
  ∧ view_error (handleSubmit (λ _, DetailOther true)
                  (rejecting "Request failed with status code 422")
                  "someone@example.com" "wrong" (initial_world ∅)).1
    = RawDetail.
Proof.
  destruct (handleSubmit_failure (λ _, DetailText "Incorrect email or password")
              (rejecting "Request failed with status code 401")
              "someone@example.com" "wrong" (initial_world ∅)
              (mkApiError "Request failed with status code 401") eq_refl)
    as (_ & _ & _ & _ & _ & Htext & _).
  destruct (handleSubmit_failure (λ _, DetailOther true)
              (rejecting "Request failed with status code 422")
              "someone@example.com" "wrong" (initial_world ∅)
              (mkApiError "Request failed with status code 422") eq_refl)
    as (_ & _ & _ & Hraw & _).
  split; [by apply Htext|by apply Hraw].
Defined.

(** ** An action that starts while another one awaits *)

(** [checkAuth] is its part up to the [await] followed by its part
    after it, with the answer of the server to the request sent. *)
Lemma checkAuth_around_await (srv : Server) (w : World) :
  checkAuth srv w =
  (let* pending := checkAuth_until_await in
   match pending with
   | Some (t, r) => checkAuth_after_await t (get_user srv r)
   | None => ret ()
   end) w.
Proof.
  unfold checkAuth_until_await, checkAuth_after_await, dispatch, arrive.
  checkAuth_cases srv w; try done; by rewrite Hanswer.
Qed.

Lemma checkAuth_until_await_sent (w : World) (t : string) :
  localStorage w !! "authToken" = Some t →
  Js.truthy t = true →
  checkAuth_until_await w
  = (Returned (Some (t, me_request t w)),
     emit (Sent (me_request t w))
       (emit (Notified (merge (store w) [f_loading true]))
          (mkWorld (merge (store w) [f_loading true]) (localStorage w) (defaults w)
             (trace w)))).
Proof.
  intros Hstored Htruthy.
  unfold checkAuth_until_await, dispatch, bind, localStorage_getItem, ret, set.
  rewrite Hstored. simpl. rewrite Htruthy. reflexivity.
Qed.

Lemma logout_run (w : World) :
  logout w
  = (Returned (),
     mkWorld
       (merge (store w) [f_user None; f_token None; f_isAuthenticated false;
                         f_users []; f_stats None])
       (delete "authToken" (localStorage w))
       (delete "Authorization" (defaults w))
       (trace w
        ++ [Notified (merge (store w) [f_user None; f_token None;
                                       f_isAuthenticated false; f_users [];
                                       f_stats None])])).
Proof. reflexivity. Qed.

Lemma checkAuth_after_await_accepted (t : string) (u : User) (w : World) :
  checkAuth_after_await t (inr u) w
  = (Returned (),
     mkWorld
       (merge (store w) [f_user (Some u); f_token (Some t); f_isAuthenticated true;
                         f_loading false])
       (localStorage w)
       (<["Authorization" := Bearer t]> (defaults w))
       (trace w
        ++ [Notified (merge (store w) [f_user (Some u); f_token (Some t);
                                       f_isAuthenticated true; f_loading false])])).
Proof. reflexivity. Qed.

(** A [logout] while [checkAuth] awaits its answer is undone when the
    answer arrives: if [/auth/me] accepts the token read before the
    logout, the store ends authenticated with the answered user and
    that token, and the token is again the default [Authorization]
    header, so that later requests carry it and the guard lets the user
    in, while nothing is persisted any more and a reload starts
    unauthenticated. *)
Theorem logout_during_checkAuth {Node : Type} (w : World) (t : string) (u : User)
    (c : Node) :
  localStorage w !! "authToken" = Some t →
  Js.truthy t = true →
  let awaiting := (checkAuth_until_await w).2 in
  let left := (logout awaiting).2 in
  let w' := (checkAuth_after_await t (inr u) left).2 in
  (checkAuth_until_await w).1 = Returned (Some (t, me_request t w))
  ∧ isAuthenticated (store left) = false
  ∧ localStorage left !! "authToken" = None
  ∧ user (store w') = Some u
  ∧ token (store w') = Some t
  ∧ isAuthenticated (store w') = true
  ∧ loading (store w') = false
  ∧ localStorage w' !! "authToken" = None
  ∧ defaults w' !! "Authorization" = Some (Bearer t)
  ∧ (∀ m url d, headers (request_of m url d ∅ w') !! "Authorization" = Some (Bearer t))
  ∧ isAuthenticated (initial_state (localStorage w')) = false
  ∧ ProtectedRoute (mkProps c None None) (store w') = Fragment c.
Proof.
  intros Hstored Htruthy. cbv zeta.
  rewrite checkAuth_after_await_accepted, logout_run,
    (checkAuth_until_await_sent w t Hstored Htruthy).
  unfold ProtectedRoute, request_of, interceptor, initial_state, emit. simpl.
  rewrite !lookup_delete_eq, !lookup_insert_eq. simpl.
  repeat (split; [done|]). split; [|done].
  intros _ _ _. rewrite (left_id_L ∅ (∪)). apply lookup_insert_eq.
Qed.

Lemma logout_during_checkAuth_witness :
  token (store (checkAuth_after_await "t0" (inr (user_with_role "user"))
                  (logout (checkAuth_until_await (initial_world remembered)).2).2).2)
  = Some "t0"
  ∧ localStorage
      (checkAuth_after_await "t0" (inr (user_with_role "user"))
         (logout (checkAuth_until_await (initial_world remembered)).2).2).2
    !! "authToken" = None.
Proof.
  destruct (logout_during_checkAuth (initial_world remembered) "t0"
              (user_with_role "user") () eq_refl eq_refl)
    as (_ & _ & _ & _ & Htoken & _ & _ & Hgone & _).
  split; [exact Htoken|exact Hgone].
Defined.
